(** * Noodle: rate limiter and module router

    A shallow embedding of [src/lib/rate-limit.ts], [src/db/schema] and
    [src/server/routers/modules.ts], with the properties of the
    specification stated over it.

    Conventions.
    - Timestamps ([Date], [Date.now()], SQL [now()]) are integers: milliseconds
      since the epoch.
    - An [async] function that talks to a store is a computation in the
      state-and-exception monad [M]: the store is the state, a JavaScript
      [throw] is the left summand.  The state survives an exception, as the
      store does.
    - Clock readings and the identifier drawn by [defaultRandom()] come from
      the environment and are explicit arguments. *)

From stdpp Require Import base option list sorting strings gmap.

Local Open Scope Z_scope.

(** ** The state-and-exception monad *)

Definition M (St E A : Type) : Type := St → (E + A) * St.

Section monad.
Context {St E : Type}.

Definition throw {A} (e : E) : M St E A := λ s, (inl e, s).

#[global] Instance M_ret : MRet (M St E) := λ A a s, (inr a, s).

#[global] Instance M_bind : MBind (M St E) := λ A B k m s,
  match m s with
  | (inl e, s') => (inl e, s')
  | (inr a, s') => k a s'
  end.

(** [try { m } catch (e) { h e }] *)
Definition try_catch {E' A} (m : M St E A) (h : E → M St E' A) : M St E' A :=
  λ s,
    match m s with
    | (inl e, s') => h e s'
    | (inr a, s') => (inr a, s')
    end.
End monad.

(** ** Rate limiter ([rate-limit.ts]) *)

Module RateLimit.

Record RateLimitResult := mkResult {
  success : bool;
  remaining : Z;
  reset : Z;
}.

(** What the imported [redis] client offers to [rateLimit].  Each call
    may throw. *)
Class RedisClient (St : Type) := {
  incr : string → M St string Z;
  expire : string → Z → M St string Z;
  ttl : string → M St string Z;
}.

Definition key_of (identifier : string) : string :=
  "rate_limit:" +:+ identifier.

Section rateLimit.
Context {St : Type} `{!RedisClient St}.

(** The body of the [try] block.  [now] is the reading of [Date.now()]. *)
Definition rateLimit_try (now : Z) (identifier : string) (limit window : Z)
  : M St string RateLimitResult :=
  let key := key_of identifier in
  count ← incr key;
  (if count =? 1 then expire key window else mret 0);;
  ttl ← ttl key;
  let reset := now + ttl * 1000 in
  mret {| success := count <=? limit;
          remaining := Z.max 0 (limit - count);
          reset := reset |}.

(** [rateLimit]: the [catch] clause handles every exception, so the
    result is a plain [RateLimitResult]. *)
Definition rateLimit (now : Z) (identifier : string) (limit window : Z)
  : St → RateLimitResult * St :=
  λ s,
    match rateLimit_try now identifier limit window s with
    | (inr r, s') => (r, s')
    | (inl _, s') =>
        ({| success := true;
            remaining := limit;
            reset := now + window * 1000 |}, s')
    end.

(** One of the store operations that [rateLimit] issues from [s] throws:
    the increment, the expiry after a first increment, or the time-to-live
    query. *)
Definition store_fails (identifier : string) (window : Z) (s : St) : Prop :=
  let key := key_of identifier in
  match incr key s with
  | (inl _, _) => True
  | (inr count, s1) =>
      match (if count =? 1 then expire key window s1 else (inr 0, s1)) with
      | (inl _, _) => True
      | (inr _, s2) =>
          match ttl key s2 with
          | (inl _, _) => True
          | (inr _, _) => False
          end
      end
  end.

(** Default arguments [limit = 5], [window = 60]. *)
Definition rateLimit_default (now : Z) (identifier : string)
    (limit window : option Z) : St → RateLimitResult * St :=
  rateLimit now identifier (default 5 limit) (default 60 window).
End rateLimit.

(** Preset table. *)
Definition strict : Z * Z := (3, 3600).
Definition standard : Z * Z := (10, 60).
Definition lenient : Z * Z := (30, 60).
Definition internal : Z * Z := (100, 60).

(** *** The key-value store *)

Record entry := mkEntry { value : Z; expireAt : option Z }.

(** Modelled from the spec: the key-value store behind the imported
    [./redis] client (its source is not part of this slice): a keyed
    integer counter with an expiry, "created on first increment within a
    window; expires automatically after the window elapses".  [clock] is
    the store's time in milliseconds; [down] says the store is
    unreachable, in which case every operation throws. *)
Record Redis := mkRedis {
  clock : Z;
  data : gmap string entry;
  down : bool;
}.

Definition expired (now : Z) (e : entry) : bool :=
  match expireAt e with
  | Some t => t <=? now
  | None => false
  end.

(** The entry of a key that is present and has not expired. *)
Definition live (r : Redis) (k : string) : option entry :=
  match data r !! k with
  | Some e => if expired (clock r) e then None else Some e
  | None => None
  end.

Definition put (k : string) (e : entry) (r : Redis) : Redis :=
  {| clock := clock r; data := <[k := e]> (data r); down := down r |}.

Definition del (k : string) (r : Redis) : Redis :=
  {| clock := clock r; data := delete k (data r); down := down r |}.

Definition set_clock (t : Z) (r : Redis) : Redis :=
  {| clock := t; data := data r; down := down r |}.

Definition unreachable : string := "fetch failed".

(** Modelled from the spec: the store's INCR, the atomic increment that
    is missing with the client.  It adds one to a live counter and keeps its
    expiry; an absent or expired key counts from zero, without expiry. *)
Definition redis_incr (k : string) : M Redis string Z := λ r,
  if down r then (inl unreachable, r) else
  match live r k with
  | Some e => (inr (value e + 1),
               put k {| value := value e + 1; expireAt := expireAt e |} r)
  | None => (inr 1, put k {| value := 1; expireAt := None |} r)
  end.

(** Modelled from the spec: the store's EXPIRE, missing with the client.
    It sets the time to live in seconds; a non-positive time to live deletes
    the key; the answer is 1 when the key exists, else 0. *)
Definition redis_expire (k : string) (seconds : Z) : M Redis string Z := λ r,
  if down r then (inl unreachable, r) else
  match live r k with
  | Some e =>
      if seconds <=? 0 then (inr 1, del k r)
      else (inr 1,
            put k {| value := value e;
                     expireAt := Some (clock r + seconds * 1000) |} r)
  | None => (inr 0, r)
  end.

(** Modelled from the spec: the store's TTL, missing with the client: the
    remaining seconds, rounded; -1 without expiry, -2 without key. *)
Definition redis_ttl (k : string) : M Redis string Z := λ r,
  if down r then (inl unreachable, r) else
  match live r k with
  | Some e =>
      match expireAt e with
      | Some t => (inr ((t - clock r + 500) `div` 1000), r)
      | None => (inr (-1), r)
      end
  | None => (inr (-2), r)
  end.

#[global] Instance redis_client : RedisClient Redis :=
  {| incr := redis_incr; expire := redis_expire; ttl := redis_ttl |}.

(** Successive calls for one identifier, the [i]-th at time [times !! i]
    on the store's and on the caller's clock. *)
Fixpoint calls (identifier : string) (limit window : Z) (times : list Z)
    (r : Redis) : list RateLimitResult :=
  match times with
  | [] => []
  | t :: times =>
      let '(res, r') := rateLimit t identifier limit window (set_clock t r) in
      res :: calls identifier limit window times r'
  end.

(** The window opened by a first call at [t1]. *)
Definition within_window (t1 window : Z) (t : Z) : Prop :=
  t1 ≤ t < t1 + window * 1000.

(** The counter of [identifier] is fresh at time [t]. *)
Definition fresh (identifier : string) (t : Z) (r : Redis) : Prop :=
  live (set_clock t r) (key_of identifier) = None.

(** Two stores that look alike from one key: same clock, same
    reachability, same entry under the key. *)
Definition agree_on (k : string) (r1 r2 : Redis) : Prop :=
  clock r1 = clock r2 ∧ down r1 = down r2 ∧ data r1 !! k = data r2 !! k.

(** The store after the same successive calls. *)
Fixpoint calls_end (identifier : string) (limit window : Z) (times : list Z)
    (r : Redis) : Redis :=
  match times with
  | [] => r
  | t :: times =>
      calls_end identifier limit window times
        (rateLimit t identifier limit window (set_clock t r)).2
  end.

End RateLimit.

(** ** Module schema and router ([schema], [modules.ts]) *)

Module Modules.

(** A row of [modulesTable]. *)
Record ModuleRow := mkRow {
  id : string;
  user_id : string;
  name : string;
  description : option string;
  code : string;
  icon : string;
  color : string;
  archived : bool;
  credits : Z;
  createdAt : Z;
  modifiedAt : Z;
  lastVisited : Z;
}.

#[global] Instance ModuleRow_eq_dec : EqDecision ModuleRow.
Proof. solve_decision. Defined.

(** What a resolver can throw. *)
Inductive TRPC_ERROR_CODE := BAD_REQUEST | NOT_FOUND | INTERNAL_SERVER_ERROR.

Inductive exn :=
  | TRPCError (code : TRPC_ERROR_CODE) (message : string)
  | DrizzleError (message : string)
  | Error (message : string).

(** A failure of the database driver: a [DrizzleError] or any other error. *)
Inductive DbFault := DrizzleFault (message : string) | DriverFault (message : string).

Definition fault_exn (f : DbFault) : exn :=
  match f with
  | DrizzleFault msg => DrizzleError msg
  | DriverFault msg => Error msg
  end.

(** The relational store: the rows of the table in storage order, and what
    the next statements will meet ([Some f]: the statement fails with [f];
    [None] or an exhausted list: it succeeds). *)
Record Db := mkDb {
  rows : list ModuleRow;
  faults : list (option DbFault);
}.

(** One statement against the store. *)
Definition statement {A} (f : list ModuleRow → (exn + A) * list ModuleRow)
  : M Db exn A := λ db,
  match faults db with
  | Some e :: fs => (inl (fault_exn e), {| rows := rows db; faults := fs |})
  | None :: fs =>
      let '(a, rs) := f (rows db) in (a, {| rows := rs; faults := fs |})
  | [] =>
      let '(a, rs) := f (rows db) in (a, {| rows := rs; faults := [] |})
  end.

(** [orderBy: desc(t.lastVisited)]. *)
Definition desc_lastVisited (a b : ModuleRow) : Prop :=
  lastVisited b ≤ lastVisited a.

#[global] Instance desc_lastVisited_dec a b : Decision (desc_lastVisited a b).
Proof. unfold desc_lastVisited. apply _. Defined.

(** [db.query.modulesTable.findFirst({ where })] *)
Definition findFirst (P : ModuleRow → Prop) `{!∀ t, Decision (P t)}
  : M Db exn (option ModuleRow) :=
  statement (λ rs, (inr (head (filter P rs)), rs)).

(** [db.query.modulesTable.findMany({ where, orderBy: desc(lastVisited), limit })].
    The query names no tie-break; rows with equal [lastVisited] come in the
    order the sort leaves them, one of the orders the database may choose. *)
Definition findMany (P : ModuleRow → Prop) `{!∀ t, Decision (P t)} (limit : nat)
  : M Db exn (list ModuleRow) :=
  statement (λ rs,
    (inr (take limit (merge_sort desc_lastVisited (filter P rs))), rs)).

(** [db.update(modulesTable).set(...).where(...)]: the number of rows
    affected. *)
Definition update_where (P : ModuleRow → Prop) `{!∀ t, Decision (P t)}
    (set : ModuleRow → ModuleRow) : M Db exn nat :=
  statement (λ rs,
    (inr (length (filter P rs)),
     (λ r, if decide (P r) then set r else r) <$> rs)).

(** [and(eq(t.id, i), eq(t.user_id, u))] *)
Definition id_and_owner (i u : string) (t : ModuleRow) : Prop :=
  id t = i ∧ user_id t = u.

#[global] Instance id_and_owner_dec i u t : Decision (id_and_owner i u t).
Proof. unfold id_and_owner. apply _. Defined.

(** [eq(t.id, i)] *)
Definition has_id (i : string) (t : ModuleRow) : Prop := id t = i.

#[global] Instance has_id_dec i t : Decision (has_id i t).
Proof. unfold has_id. apply _. Defined.

(** The [where] of [getUserModules]. *)
Definition page_where (userId : string) (cursorDate : option Z)
    (t : ModuleRow) : Prop :=
  match cursorDate with
  | Some d => user_id t = userId ∧ lastVisited t < d
  | None => user_id t = userId
  end.

#[global] Instance page_where_dec u d t : Decision (page_where u d t).
Proof. unfold page_where. destruct d; apply _. Defined.

(** *** Input schemas *)

(** The fields a client sends to [create] and [update]: what
    [insertModuleSchema.pick] accepts before defaults. *)
Record ModuleFields := mkFields {
  f_name : string;
  f_description : option string;
  f_code : string;
  f_icon : option string;
  f_color : option string;
  f_credits : option Z;
}.

(** The same after parsing. *)
Record ModuleValues := mkValues {
  v_name : string;
  v_description : option string;
  v_code : string;
  v_icon : string;
  v_color : string;
  v_credits : Z;
}.

(** [insertModuleSchema]: [icon] and [color] default to ['default'],
    [credits] to [0]; [description] stays optional. *)
Definition insertModuleSchema (input : ModuleFields) : ModuleValues :=
  {| v_name := f_name input;
     v_description := f_description input;
     v_code := f_code input;
     v_icon := default "default" (f_icon input);
     v_color := default "default" (f_color input);
     v_credits := default 0 (f_credits input) |}.

(** The input of [getUserModules]:
    [z.object({ limit: z.number().min(1).max(100).default(20), cursor })
       .optional().default({ limit: 20 })];
    [None] when validation rejects it. *)
Definition getUserModules_input (input : option (option nat * option string))
  : option (nat * option string) :=
  match input with
  | None => Some (20%nat, None)
  | Some (limit, cursor) =>
      let limit := default 20%nat limit in
      if bool_decide (1 ≤ limit ≤ 100)%nat then Some (limit, cursor) else None
  end.

(** *** Resolvers *)

Definition getById (userId : string) (input_id : string)
  : M Db exn ModuleRow :=
  try_catch
    (userModule ← findFirst (id_and_owner input_id userId);
     match userModule with
     | None => throw (TRPCError BAD_REQUEST "Module not found")
     | Some userModule => mret userModule
     end)
    (λ error,
       match error with
       | DrizzleError message => throw (TRPCError BAD_REQUEST message)
       | _ =>
           throw (TRPCError INTERNAL_SERVER_ERROR
                    "An error occurred while fetching the module")
       end).

Record Page := mkPage {
  items : list ModuleRow;
  nextCursor : option string;
}.

(** [if (cursor)]: the empty string is falsy. *)
Definition truthy (s : string) : bool := bool_decide (s ≠ "").

(** The anchor lookup: [cursorDate]. *)
Definition cursor_lookup (cursor : option string) : M Db exn (option Z) :=
  match cursor with
  | Some c =>
      if truthy c then
        cursorModule ← findFirst (has_id c);
        mret (lastVisited <$> cursorModule)
      else mret None
  | None => mret None
  end.

(** [modules.slice(0, -1)] *)
Definition slice_0_m1 {A} (l : list A) : list A := take (length l - 1)%nat l.

(** From the fetched rows to the page; [hasMore] is
    [modules.length > limit]. *)
Definition page_of (limit : nat) (modules : list ModuleRow) : Page :=
  let hasMore := bool_decide (limit < length modules)%nat in
  let items := if hasMore then slice_0_m1 modules else modules in
  {| items := items;
     nextCursor := if hasMore then id <$> last items else None |}.

Definition getUserModules (userId : string) (limit : nat)
    (cursor : option string) : M Db exn Page :=
  cursorDate ← cursor_lookup cursor;
  modules ← findMany (page_where userId cursorDate) (limit + 1);
  mret (page_of limit modules).

(** [db.insert(modulesTable).values(...).returning()].  The table fills
    in [id] ([defaultRandom()], here [uuid]), [archived] and the three
    timestamps ([defaultNow()], here [now]); the primary key rejects an
    [id] that is already there. *)
Definition insert_returning (uuid : string) (now : Z) (userId : string)
    (v : ModuleValues) : M Db exn (list ModuleRow) :=
  statement (λ rs,
    if decide (uuid ∈ id <$> rs) then
      (inl (Error "duplicate key value violates unique constraint"), rs)
    else
      let row :=
        {| id := uuid; user_id := userId; name := v_name v;
           description := v_description v; code := v_code v;
           icon := v_icon v; color := v_color v;
           archived := false; credits := v_credits v;
           createdAt := now; modifiedAt := now; lastVisited := now |} in
      (inr [row], rs ++ [row])).

Definition create (uuid : string) (now : Z) (userId : string)
    (input : ModuleValues) : M Db exn (list ModuleRow) :=
  insert_returning uuid now userId
    {| v_name := v_name input;
       v_description := Some (default "" (v_description input));
       v_code := v_code input;
       v_icon := v_icon input;
       v_color := v_color input;
       v_credits := v_credits input |}.

Definition set_archived (b : bool) (r : ModuleRow) : ModuleRow :=
  {| id := id r; user_id := user_id r; name := name r;
     description := description r; code := code r; icon := icon r;
     color := color r; archived := b; credits := credits r;
     createdAt := createdAt r; modifiedAt := modifiedAt r;
     lastVisited := lastVisited r |}.

Definition archive (userId : string) (input_id : string) : M Db exn nat :=
  update_where (id_and_owner input_id userId) (set_archived true).

Definition recover (userId : string) (input_id : string) : M Db exn nat :=
  update_where (id_and_owner input_id userId) (set_archived false).

(** [.set({ ...updateData, description: updateData.description ?? '',
            modifiedAt: new Date() })] *)
Definition set_update (updateData : ModuleValues) (now : Z) (r : ModuleRow)
  : ModuleRow :=
  {| id := id r; user_id := user_id r; name := v_name updateData;
     description := Some (default "" (v_description updateData));
     code := v_code updateData; icon := v_icon updateData;
     color := v_color updateData; archived := archived r;
     credits := v_credits updateData;
     createdAt := createdAt r; modifiedAt := now;
     lastVisited := lastVisited r |}.

Definition update (now : Z) (userId : string) (moduleId : string)
    (updateData : ModuleValues) : M Db exn nat :=
  existingModule ← findFirst (id_and_owner moduleId userId);
  match existingModule with
  | None => throw (TRPCError NOT_FOUND "Module not found")
  | Some _ =>
      update_where (id_and_owner moduleId userId) (set_update updateData now)
  end.

Definition set_lastVisited (now : Z) (r : ModuleRow) : ModuleRow :=
  {| id := id r; user_id := user_id r; name := name r;
     description := description r; code := code r; icon := icon r;
     color := color r; archived := archived r; credits := credits r;
     createdAt := createdAt r; modifiedAt := modifiedAt r;
     lastVisited := now |}.

Definition updateLastVisited (now : Z) (userId : string) (input_id : string)
  : M Db exn nat :=
  update_where (id_and_owner input_id userId) (set_lastVisited now).

(** A store on which every statement succeeds. *)
Definition healthy (rs : list ModuleRow) : Db := {| rows := rs; faults := [] |}.

(** The primary key: no two rows share an [id]. *)
Definition unique_ids (rs : list ModuleRow) : Prop := NoDup (id <$> rs).

(** The rows of a user. *)
Definition modules_of (userId : string) (rs : list ModuleRow) : list ModuleRow :=
  filter (λ t, user_id t = userId) rs.

(** The caller's module with a given id, as the resolvers look it up. *)
Definition owned (userId moduleId : string) (rs : list ModuleRow)
  : option ModuleRow :=
  head (filter (id_and_owner moduleId userId) rs).

(** A sequence of [update] calls on one module, each with the reading of
    [new Date()] it meets: the module as stored after each call. *)
Fixpoint update_trace (userId moduleId : string)
    (calls : list (Z * ModuleValues)) (db : Db) : list (option ModuleRow) :=
  match calls with
  | [] => []
  | (now, updateData) :: calls =>
      let db' := (update now userId moduleId updateData db).2 in
      owned userId moduleId (rows db')
        :: update_trace userId moduleId calls db'
  end.

(** [modulesRouter]: the procedures by name, each with the input its
    resolver receives and the values the environment supplies to it. *)
Inductive Call :=
  | GetById (input_id : string)
  | GetUserModules (limit : nat) (cursor : option string)
  | Create (uuid : string) (now : Z) (input : ModuleValues)
  | Archive (input_id : string)
  | Recover (input_id : string)
  | Update (now : Z) (moduleId : string) (updateData : ModuleValues)
  | UpdateLastVisited (now : Z) (input_id : string).

(** The store after one call of the router by [userId]. *)
Definition modulesRouter (userId : string) (c : Call) (db : Db) : Db :=
  match c with
  | GetById input_id => (getById userId input_id db).2
  | GetUserModules limit cursor => (getUserModules userId limit cursor db).2
  | Create uuid now input => (create uuid now userId input db).2
  | Archive input_id => (archive userId input_id db).2
  | Recover input_id => (recover userId input_id db).2
  | Update now moduleId updateData =>
      (update now userId moduleId updateData db).2
  | UpdateLastVisited now input_id =>
      (updateLastVisited now userId input_id db).2
  end.

(** The clock reading a call carries, if it reads the clock. *)
Definition call_now (c : Call) : option Z :=
  match c with
  | Create _ now _ | Update now _ _ | UpdateLastVisited now _ => Some now
  | GetById _ | GetUserModules _ _ | Archive _ | Recover _ => None
  end.

(** A row whose modification and visit times lie between its creation
    time and [t]. *)
Definition timely (t : Z) (r : ModuleRow) : Prop :=
  createdAt r ≤ modifiedAt r ≤ t ∧ createdAt r ≤ lastVisited r ≤ t.

(** The store after a sequence of calls, each with its caller. *)
Fixpoint run (trace : list (string * Call)) (db : Db) : Db :=
  match trace with
  | [] => db
  | (userId, c) :: trace => run trace (modulesRouter userId c db)
  end.

End Modules.

(** ** Error taxonomy ([errors.ts]) *)

Module Errors.

Record AppError := mkAppError {
  name : string;
  code : string;
  message : string;
  statusCode : Z;
}.

(** [identifier ? ... : ...]: an absent or empty identifier is falsy. *)
Definition NotFoundError (resource : string) (identifier : option string)
  : AppError :=
  let message :=
    match identifier with
    | Some i =>
        if bool_decide (i ≠ "")
        then resource +:+ " with identifier '" +:+ i +:+ "' not found"
        else resource +:+ " not found"
    | None => resource +:+ " not found"
    end in
  {| name := "NotFoundError"; code := "NOT_FOUND"; message := message;
     statusCode := 404 |}.

Definition UnauthorizedError (message : option string) : AppError :=
  {| name := "UnauthorizedError"; code := "UNAUTHORIZED";
     message := default "Unauthorized access" message; statusCode := 401 |}.

Definition ForbiddenError (message : option string) : AppError :=
  {| name := "ForbiddenError"; code := "FORBIDDEN";
     message := default "Access forbidden" message; statusCode := 403 |}.

Definition ValidationError (message : string) : AppError :=
  {| name := "ValidationError"; code := "VALIDATION_ERROR";
     message := message; statusCode := 400 |}.

Definition ConflictError (message : string) : AppError :=
  {| name := "ConflictError"; code := "CONFLICT";
     message := message; statusCode := 409 |}.

Definition RateLimitError (message : option string) : AppError :=
  {| name := "RateLimitError"; code := "RATE_LIMIT_EXCEEDED";
     message := default "Too many requests" message; statusCode := 429 |}.

Definition InternalError (message : option string) : AppError :=
  {| name := "InternalError"; code := "INTERNAL_ERROR";
     message := default "Internal server error" message; statusCode := 500 |}.

End Errors.

(** * Properties *)

(** ** Error taxonomy *)

Lemma NotFoundError_class resource identifier :
  Errors.code (Errors.NotFoundError resource identifier) = "NOT_FOUND" ∧
  Errors.statusCode (Errors.NotFoundError resource identifier) = 404.
Proof. done. Qed.

Lemma status_classes m o :
  Errors.statusCode <$>
    [Errors.NotFoundError m o; Errors.UnauthorizedError o;
     Errors.ForbiddenError o; Errors.ValidationError m;
     Errors.ConflictError m; Errors.RateLimitError o; Errors.InternalError o]
  = [404; 401; 403; 400; 409; 429; 500].
Proof. done. Qed.

(** ** Rate limiter *)

Section rate_limit_properties.
Import RateLimit.

Lemma live_put r k e :
  live (put k e r) k = if expired (clock r) e then None else Some e.
Proof. unfold live, put; simpl. by rewrite lookup_insert_eq. Qed.

Lemma live_set_clock_data r r' t k :
  data r = data r' → live (set_clock t r) k = live (set_clock t r') k.
Proof. unfold live, set_clock; simpl. by intros ->. Qed.

(** The first call on a fresh counter opens the window. *)
Lemma rateLimit_first identifier limit window t r :
  down r = false → fresh identifier t r → 0 < window →
  ∃ res r',
    rateLimit t identifier limit window (set_clock t r) = (res, r') ∧
    success res = (1 <=? limit) ∧
    remaining res = Z.max 0 (limit - 1) ∧
    down r' = false ∧
    data r' !! key_of identifier
      = Some {| value := 1; expireAt := Some (t + window * 1000) |}.
Proof.
  intros Hup Hfresh Hw. unfold fresh in Hfresh.
  unfold rateLimit, rateLimit_try, mbind, M_bind, mret, M_ret; simpl.
  unfold redis_incr; simpl. rewrite Hup, Hfresh; simpl.
  unfold redis_expire; simpl. rewrite Hup.
  rewrite (live_put (set_clock t r)); simpl.
  destruct (window <=? 0) eqn:Hle; [lia|].
  unfold redis_ttl; simpl. rewrite Hup.
  match goal with |- context [live (put ?k ?e ?s) ?k] =>
    rewrite (live_put s k e) end.
  unfold expired; simpl.
  destruct (t + window * 1000 <=? t) eqn:Hexp; [lia|].
  eexists _, _. split; [reflexivity|]. simpl.
  repeat split; try done. by rewrite lookup_insert_eq.
Qed.

(** A later call inside the window counts one more and keeps the expiry. *)
Lemma rateLimit_next identifier limit window t r n T :
  down r = false →
  data r !! key_of identifier = Some {| value := n; expireAt := Some T |} →
  1 ≤ n → t < T →
  ∃ res r',
    rateLimit t identifier limit window (set_clock t r) = (res, r') ∧
    success res = (n + 1 <=? limit) ∧
    remaining res = Z.max 0 (limit - (n + 1)) ∧
    down r' = false ∧
    data r' !! key_of identifier
      = Some {| value := n + 1; expireAt := Some T |}.
Proof.
  intros Hup Hk Hn Ht.
  assert (Hlive : live (set_clock t r) (key_of identifier)
                  = Some {| value := n; expireAt := Some T |}).
  { unfold live; simpl. rewrite Hk. unfold expired; simpl.
    destruct (T <=? t) eqn:E; [lia|done]. }
  unfold rateLimit, rateLimit_try, mbind, M_bind, mret, M_ret; simpl.
  unfold redis_incr; simpl. rewrite Hup, Hlive; simpl.
  destruct (n + 1 =? 1) eqn:E1; [lia|].
  unfold redis_ttl; simpl. rewrite Hup.
  rewrite (live_put (set_clock t r)); simpl.
  unfold expired; simpl. destruct (T <=? t) eqn:E; [lia|]. simpl.
  eexists _, _. split; [reflexivity|]. simpl.
  repeat split; try done. by rewrite lookup_insert_eq.
Qed.

(** Calls inside an open window: the [i]-th of them is call [n + 1 + i]. *)
Lemma calls_counted identifier limit window times : ∀ r n T,
  down r = false →
  data r !! key_of identifier = Some {| value := n; expireAt := Some T |} →
  1 ≤ n → Forall (λ t, t < T) times →
  length (calls identifier limit window times r) = length times ∧
  ∀ (i : nat) res,
    calls identifier limit window times r !! i = Some res →
    success res = (n + 1 + Z.of_nat i <=? limit) ∧
    remaining res = Z.max 0 (limit - (n + 1 + Z.of_nat i)).
Proof.
  induction times as [|t times IH]; intros r n T Hup Hk Hn Hall.
  { split; [done|]. intros i res Hi. by destruct i. }
  inversion_clear Hall as [|? ? Ht Hts].
  destruct (rateLimit_next identifier limit window t r n T Hup Hk Hn Ht)
    as (res0 & r' & Hcall & Hs & Hr & Hup' & Hk').
  simpl. rewrite Hcall.
  destruct (IH r' (n + 1) T Hup' Hk' ltac:(lia) Hts) as [Hlen Hrest].
  split; [simpl; by rewrite Hlen|].
  intros [|i] res Hi; simpl in Hi.
  - injection Hi as <-. rewrite Hs, Hr. split; f_equal; lia.
  - destruct (Hrest i res Hi) as [-> ->]. split; f_equal; lia.
Qed.

(** An unreachable store fails the first operation already. *)
Lemma down_store_fails identifier window (r : Redis) :
  down r = true → store_fails identifier window r.
Proof.
  intros Hd. unfold store_fails; simpl. unfold redis_incr. by rewrite Hd.
Qed.

(** C3.  On a fresh counter, the [N]-th call inside the window is allowed
    exactly when [N ≤ limit], so call [limit + 1] is refused, and it leaves
    [remaining = max 0 (limit - N)]; with [limit = 3] and a window of 60
    seconds the four calls of identifier ["u1"] answer (true, 2), (true, 1),
    (true, 0), (false, 0). *)
Theorem rateLimit_fixed_window identifier limit window t1 times (r : Redis) :
  down r = false →
  fresh identifier t1 r →
  Forall (within_window t1 window) (t1 :: times) →
  let results := calls identifier limit window (t1 :: times) r in
  length results = length (t1 :: times) ∧
  (∀ (N : nat) res,
     (1 ≤ N)%nat → results !! (N - 1)%nat = Some res →
     (Z.of_nat N ≤ limit → success res = true) ∧
     (Z.of_nat N = limit + 1 → success res = false) ∧
     (success res = true ↔ Z.of_nat N ≤ limit) ∧
     remaining res = Z.max 0 (limit - Z.of_nat N)) ∧
  (identifier = "u1" → limit = 3 → window = 60 → length times = 3%nat →
     (λ res, (success res, remaining res)) <$> results
       = [(true, 2); (true, 1); (true, 0); (false, 0)]).
Proof.
  intros Hup Hfresh Hwin results.
  inversion Hwin as [|? ? Hw1 Hws]; subst.
  assert (Hw : 0 < window) by (unfold within_window in Hw1; lia).
  destruct (rateLimit_first identifier limit window t1 r Hup Hfresh Hw)
    as (res1 & r1 & Hcall & Hs1 & Hr1 & Hup1 & Hk1).
  assert (Hlt : Forall (λ t, t < t1 + window * 1000) times).
  { eapply Forall_impl; [exact Hws|]. unfold within_window. intros; simpl; lia. }
  destruct (calls_counted identifier limit window times r1 1 _ Hup1 Hk1
              ltac:(lia) Hlt) as [Hlen Hrest].
  assert (Hres : results = res1 :: calls identifier limit window times r1).
  { unfold results; simpl. by rewrite Hcall. }
  assert (Hnth : ∀ (N : nat) res,
            (1 ≤ N)%nat → results !! (N - 1)%nat = Some res →
            success res = (Z.of_nat N <=? limit) ∧
            remaining res = Z.max 0 (limit - Z.of_nat N)).
  { intros N res HN Hlook. rewrite Hres in Hlook.
    destruct N as [|[|N]]; [lia| |]; simpl in Hlook.
    - injection Hlook as <-. by rewrite Hs1, Hr1.
    - destruct (Hrest N res Hlook) as [-> ->]. split; f_equal; lia. }
  split; [rewrite Hres; simpl; by rewrite Hlen|]. split.
  - intros N res HN Hlook. destruct (Hnth N res HN Hlook) as [Hs Hr].
    rewrite Hs, Hr. repeat split; try lia.
  - intros -> -> -> Hlen3.
    assert (Hl4 : length results = 4%nat)
      by (rewrite Hres; simpl; rewrite Hlen, Hlen3; done).
    destruct results as [|a [|b [|c [|d [|]]]]]; try discriminate Hl4.
    destruct (Hnth 1%nat a ltac:(lia) eq_refl) as [Ha1 Ha2].
    destruct (Hnth 2%nat b ltac:(lia) eq_refl) as [Hb1 Hb2].
    destruct (Hnth 3%nat c ltac:(lia) eq_refl) as [Hc1 Hc2].
    destruct (Hnth 4%nat d ltac:(lia) eq_refl) as [Hd1 Hd2].
    simpl. by rewrite Ha1, Ha2, Hb1, Hb2, Hc1, Hc2, Hd1, Hd2.
Qed.

Lemma rateLimit_fixed_window_witness :
  (λ res, (success res, remaining res)) <$>
    calls "u1" 3 60 [0; 10000; 20000; 59999]
      {| clock := 0; data := ∅; down := false |}
  = [(true, 2); (true, 1); (true, 0); (false, 0)].
Proof.
  apply (rateLimit_fixed_window "u1" 3 60 0 [10000; 20000; 59999]
           {| clock := 0; data := ∅; down := false |}).
  - reflexivity.
  - reflexivity.
  - unfold within_window. repeat constructor; lia.
  - reflexivity.
  - reflexivity.
  - reflexivity.
  - reflexivity.
Defined.

(** C4.  When an operation of the key-value store fails, [rateLimit]
    still answers: allowed, with [remaining = limit] and a reset time one
    full window after the current time. *)
Theorem rateLimit_fail_open {St} `{!RedisClient St}
    now identifier limit window (s : St) :
  store_fails identifier window s →
  (rateLimit now identifier limit window s).1
  = {| success := true; remaining := limit; reset := now + window * 1000 |}.
Proof.
  unfold store_fails, rateLimit, rateLimit_try, mbind, M_bind, mret, M_ret.
  simpl. destruct (incr (key_of identifier) s) as [[e|count] s1]; [done|].
  destruct (count =? 1).
  - destruct (expire (key_of identifier) window s1) as [[e|?] s2]; [done|].
    by destruct (ttl (key_of identifier) s2) as [[e|?] s3].
  - by destruct (ttl (key_of identifier) s1) as [[e|?] s3].
Qed.

Lemma rateLimit_fail_open_witness :
  (rateLimit 1700000000000 "u1" 3 60
     {| clock := 1700000000000; data := ∅; down := true |}).1
  = {| success := true; remaining := 3; reset := 1700000060000 |}.
Proof.
  apply (rateLimit_fail_open 1700000000000 "u1" 3 60
           {| clock := 1700000000000; data := ∅; down := true |}).
  vm_compute. exact I.
Defined.

End rate_limit_properties.

(** ** Module router *)

Section module_properties.
Import Modules.

Ltac unfold_M := unfold mbind, M_bind, mret, M_ret, try_catch, throw.

(** *** Statements on a healthy store *)

Lemma findFirst_healthy (P : ModuleRow → Prop) `{!∀ t, Decision (P t)} rs :
  findFirst P (healthy rs) = (inr (head (filter P rs)), healthy rs).
Proof. reflexivity. Qed.

Lemma findMany_healthy (P : ModuleRow → Prop) `{!∀ t, Decision (P t)} n rs :
  findMany P n (healthy rs)
  = (inr (take n (merge_sort desc_lastVisited (filter P rs))), healthy rs).
Proof. reflexivity. Qed.

Lemma update_where_healthy (P : ModuleRow → Prop) `{!∀ t, Decision (P t)}
    set rs :
  update_where P set (healthy rs)
  = (inr (length (filter P rs)),
     healthy ((λ r, if decide (P r) then set r else r) <$> rs)).
Proof. reflexivity. Qed.

(** Whatever the faults, a statement leaves the rows or applies its effect. *)
Lemma statement_rows {A} (f : list ModuleRow → (exn + A) * list ModuleRow) db :
  rows (statement f db).2 = rows db ∨ rows (statement f db).2 = (f (rows db)).2.
Proof.
  unfold statement. destruct (faults db) as [|[e|] fs]; simpl.
  - right. by destruct (f (rows db)).
  - by left.
  - right. by destruct (f (rows db)).
Qed.

(** *** Scoped lookups and updates *)

Lemma filter_nil_iff (P : ModuleRow → Prop) `{!∀ t, Decision (P t)} rs :
  filter P rs = [] ↔ ∀ m, m ∈ rs → ¬ P m.
Proof.
  split.
  - intros Hnil m Hm HP.
    assert (m ∈ filter P rs) as Hin by (apply list_elem_of_filter; done).
    rewrite Hnil in Hin. by apply not_elem_of_nil in Hin.
  - intros Hnone. induction rs as [|r rs IH]; [done|].
    rewrite filter_cons. destruct (decide (P r)) as [HP|_].
    + exfalso. apply (Hnone r); [left|done].
    + apply IH. intros m Hm. apply Hnone. by right.
Qed.

Lemma owned_None userId moduleId rs :
  owned userId moduleId rs = None ↔
  ∀ m, m ∈ rs → id m = moduleId → user_id m ≠ userId.
Proof.
  unfold owned. rewrite head_None, filter_nil_iff. unfold id_and_owner.
  split.
  - intros H m Hm Hid Hu. by apply (H m Hm).
  - intros H m Hm [Hid Hu]. by apply (H m Hm).
Qed.

Lemma owned_Some userId moduleId rs m :
  owned userId moduleId rs = Some m →
  m ∈ rs ∧ id m = moduleId ∧ user_id m = userId.
Proof.
  unfold owned. intros Hh. apply head_Some_elem_of in Hh.
  apply list_elem_of_filter in Hh. unfold id_and_owner in Hh.
  destruct Hh as [[Hid Hu] Hin]. done.
Qed.

(** A scoped update that keeps [id] and [user_id] rewrites the module found
    by the scoped lookup and nothing else. *)
Lemma owned_update userId moduleId (set : ModuleRow → ModuleRow) rs :
  (∀ r, id (set r) = id r ∧ user_id (set r) = user_id r) →
  owned userId moduleId
    ((λ r, if decide (id_and_owner moduleId userId r) then set r else r) <$> rs)
  = set <$> owned userId moduleId rs.
Proof.
  intros Hkeep. unfold owned. induction rs as [|r rs IH]; [done|].
  rewrite fmap_cons, !filter_cons.
  destruct (decide (id_and_owner moduleId userId r)) as [HP|HP].
  - rewrite decide_True; [done|].
    unfold id_and_owner in *. destruct (Hkeep r) as [-> ->]. done.
  - rewrite decide_False; done.
Qed.

(** *** [getById] *)

Lemma getById_owned userId input_id rs m :
  owned userId input_id rs = Some m →
  getById userId input_id (healthy rs) = (inr m, healthy rs).
Proof.
  intros Ho. unfold getById, owned in *. unfold_M.
  rewrite findFirst_healthy, Ho. done.
Qed.

(** C1.  What [getById] answers on a healthy store: the module when the
    caller owns one with that id; otherwise the "Module not found" error
    thrown inside the [try] block is caught by the block's own [catch] and
    replaced, so the caller receives INTERNAL_SERVER_ERROR, not a not-found
    error. *)
Theorem getById_not_owned_internal_error userId input_id rs :
  owned userId input_id rs = None →
  getById userId input_id (healthy rs)
  = (inl (TRPCError INTERNAL_SERVER_ERROR
            "An error occurred while fetching the module"), healthy rs).
Proof.
  intros Ho. unfold getById, owned in *. unfold_M.
  rewrite findFirst_healthy, Ho. done.
Qed.

Lemma getById_not_owned_internal_error_witness :
  let theirs := mkRow "7f9c2e1a" "u2" "Algorithms" (Some "") "CS201"
                  "default" "default" false 4 100 100 100 in
  owned "u1" "7f9c2e1a" [theirs] = None ∧
  getById "u1" "7f9c2e1a" (healthy [theirs])
  = (inl (TRPCError INTERNAL_SERVER_ERROR
            "An error occurred while fetching the module"), healthy [theirs]).
Proof.
  intros theirs. split; [reflexivity|].
  apply (getById_not_owned_internal_error "u1" "7f9c2e1a" [theirs]).
  reflexivity.
Defined.

(** *** No enumeration of other users' modules *)

(** The three resolvers see the table only through the scoped lookup. *)
Lemma scoped_filter_nil userId input_id rs :
  owned userId input_id rs = None →
  filter (id_and_owner input_id userId) rs = [].
Proof. unfold owned. by rewrite head_None. Qed.

(** C6.  For an id the caller does not own, [getById], [update] and
    [archive] give the caller the same result whether the id belongs to
    another user's module ([rs1]) or to no module at all ([rs2]), the
    store behaving alike in both runs. *)
Theorem not_owned_indistinguishable userId input_id now updateData rs1 rs2 fs :
  (∃ m, m ∈ rs1 ∧ id m = input_id) →
  (∀ m, m ∈ rs1 → id m = input_id → user_id m ≠ userId) →
  (∀ m, m ∈ rs2 → id m ≠ input_id) →
  (getById userId input_id (mkDb rs1 fs)).1
    = (getById userId input_id (mkDb rs2 fs)).1 ∧
  (update now userId input_id updateData (mkDb rs1 fs)).1
    = (update now userId input_id updateData (mkDb rs2 fs)).1 ∧
  (archive userId input_id (mkDb rs1 fs)).1
    = (archive userId input_id (mkDb rs2 fs)).1.
Proof.
  intros _ H1 H2.
  assert (Hn1 : filter (id_and_owner input_id userId) rs1 = []).
  { apply scoped_filter_nil, owned_None. done. }
  assert (Hn2 : filter (id_and_owner input_id userId) rs2 = []).
  { apply scoped_filter_nil, owned_None. intros m Hm Hid. by destruct (H2 m Hm). }
  repeat split.
  - unfold getById, findFirst, statement. unfold_M. simpl.
    rewrite Hn1, Hn2. by destruct fs as [|[[?|?]|] fs].
  - unfold update, findFirst, statement. unfold_M. simpl.
    rewrite Hn1, Hn2. by destruct fs as [|[[?|?]|] fs].
  - unfold archive, update_where, statement. simpl.
    rewrite Hn1, Hn2. by destruct fs as [|[[?|?]|] fs].
Qed.

Lemma not_owned_indistinguishable_witness :
  let theirs := mkRow "7f9c2e1a" "u2" "Algorithms" (Some "") "CS201"
                  "default" "default" false 4 100 100 100 in
  let data := mkValues "x" None "y" "default" "default" 0 in
  (getById "u1" "7f9c2e1a" (mkDb [theirs] [])).1
    = (getById "u1" "7f9c2e1a" (mkDb [] [])).1 ∧
  (update 200 "u1" "7f9c2e1a" data (mkDb [theirs] [])).1
    = (update 200 "u1" "7f9c2e1a" data (mkDb [] [])).1 ∧
  (archive "u1" "7f9c2e1a" (mkDb [theirs] [])).1
    = (archive "u1" "7f9c2e1a" (mkDb [] [])).1.
Proof.
  intros theirs data.
  apply (not_owned_indistinguishable "u1" "7f9c2e1a" 200 data [theirs] [] []).
  - exists theirs. split; [left|reflexivity].
  - intros m Hm _. apply list_elem_of_singleton in Hm. subst m. simpl. done.
  - intros m Hm. by apply not_elem_of_nil in Hm.
Defined.

(** *** [archive] then [recover] *)

Lemma set_archived_keeps b r :
  id (set_archived b r) = id r ∧ user_id (set_archived b r) = user_id r.
Proof. done. Qed.

(** C9.  On a module the caller owns, [archive] followed by [recover]
    leaves [archived = false] and every other field of the module as it
    was, timestamps included; the other rows of the table are untouched. *)
Theorem archive_recover userId input_id rs m :
  owned userId input_id rs = Some m →
  ∃ n1 n2 rs1 rs2 m',
    archive userId input_id (healthy rs) = (inr n1, healthy rs1) ∧
    recover userId input_id (healthy rs1) = (inr n2, healthy rs2) ∧
    owned userId input_id rs2 = Some m' ∧
    archived m' = false ∧
    (id m', user_id m', name m', description m', code m', icon m', color m',
     credits m', createdAt m', modifiedAt m', lastVisited m')
    = (id m, user_id m, name m, description m, code m, icon m, color m,
       credits m, createdAt m, modifiedAt m, lastVisited m) ∧
    length rs2 = length rs ∧
    (∀ (k : nat) r, rs !! k = Some r →
       ¬ id_and_owner input_id userId r → rs2 !! k = Some r).
Proof.
  intros Ho. unfold archive, recover.
  rewrite update_where_healthy.
  eexists _, _, _, _, _. split; [reflexivity|].
  rewrite update_where_healthy. split; [reflexivity|].
  rewrite !owned_update by apply set_archived_keeps. rewrite Ho. simpl.
  split; [reflexivity|]. split; [reflexivity|]. split; [reflexivity|].
  split; [by rewrite !length_fmap|].
  intros k r Hk Hn. rewrite !list_lookup_fmap, Hk. simpl.
  rewrite (decide_False (P := id_and_owner input_id userId r)) by done.
  by rewrite decide_False.
Qed.

Lemma archive_recover_witness :
  let mine := mkRow "7f9c2e1a" "u1" "Algorithms" (Some "") "CS201"
                "default" "default" false 4 100 150 170 in
  let theirs := mkRow "0b1d4c33" "u2" "Logic" None "CS101"
                  "default" "default" true 2 90 90 90 in
  owned "u1" "7f9c2e1a" [theirs; mine] = Some mine ∧
  ∃ n1 n2 rs1 rs2 m',
    archive "u1" "7f9c2e1a" (healthy [theirs; mine]) = (inr n1, healthy rs1) ∧
    recover "u1" "7f9c2e1a" (healthy rs1) = (inr n2, healthy rs2) ∧
    owned "u1" "7f9c2e1a" rs2 = Some m' ∧
    archived m' = false ∧
    (id m', user_id m', name m', description m', code m', icon m', color m',
     credits m', createdAt m', modifiedAt m', lastVisited m')
    = ("7f9c2e1a", "u1", "Algorithms", Some "", "CS201", "default", "default",
       4, 100, 150, 170) ∧
    length rs2 = 2%nat ∧
    (∀ (k : nat) r, [theirs; mine] !! k = Some r →
       ¬ id_and_owner "7f9c2e1a" "u1" r → rs2 !! k = Some r).
Proof.
  intros mine theirs. split; [reflexivity|].
  apply (archive_recover "u1" "7f9c2e1a" [theirs; mine] mine).
  reflexivity.
Defined.

(** *** [create] *)

Lemma insert_duplicate uuid now userId v rs :
  uuid ∈ id <$> rs →
  (insert_returning uuid now userId v (healthy rs)).1
  = inl (Error "duplicate key value violates unique constraint").
Proof.
  intros Hin. unfold insert_returning, statement; simpl.
  by rewrite decide_True.
Qed.

(** C7.  A [create] whose drawn identifier is not yet in the table returns
    one module: its id is the drawn one, which no earlier row has, and ids
    stay unique; it is not archived; a description absent from the input is
    the empty string, an absent icon or color is "default"; and the three
    timestamps are equal (to the time of creation). *)
Theorem create_returns uuid now userId (input : ModuleFields) rs :
  unique_ids rs →
  uuid ∉ id <$> rs →
  ∃ m,
    create uuid now userId (insertModuleSchema input) (healthy rs)
      = (inr [m], healthy (rs ++ [m])) ∧
    id m = uuid ∧
    (∀ r, r ∈ rs → id r ≠ id m) ∧
    unique_ids (rs ++ [m]) ∧
    user_id m = userId ∧
    archived m = false ∧
    (f_description input = None → description m = Some "") ∧
    (f_icon input = None → icon m = "default") ∧
    (f_color input = None → color m = "default") ∧
    createdAt m = modifiedAt m ∧ modifiedAt m = lastVisited m ∧
    createdAt m = now.
Proof.
  intros Huniq Hfresh. unfold create, insert_returning, statement; simpl.
  rewrite decide_False by done. eexists. split; [reflexivity|]. simpl.
  split; [done|]. split.
  { intros r Hr Heq. apply Hfresh. rewrite <- Heq.
    apply list_elem_of_fmap. by exists r. }
  split.
  { unfold unique_ids in *. rewrite fmap_app. simpl.
    apply NoDup_app. split; [done|]. split; [|apply NoDup_singleton].
    intros x Hx Hx'. apply list_elem_of_singleton in Hx'. by subst. }
  split; [done|]. split; [done|].
  split; [by intros ->|]. split; [by intros ->|]. split; [by intros ->|].
  done.
Qed.

Lemma create_returns_witness :
  let input := mkFields "Algorithms" None "CS201" None None (Some 4) in
  ∃ m,
    create "7f9c2e1a" 100 "u1" (insertModuleSchema input) (healthy [])
      = (inr [m], healthy ([] ++ [m])) ∧
    id m = "7f9c2e1a" ∧
    (∀ r, r ∈ [] → id r ≠ id m) ∧
    unique_ids ([] ++ [m]) ∧
    user_id m = "u1" ∧
    archived m = false ∧
    (f_description input = None → description m = Some "") ∧
    (f_icon input = None → icon m = "default") ∧
    (f_color input = None → color m = "default") ∧
    createdAt m = modifiedAt m ∧ modifiedAt m = lastVisited m ∧
    createdAt m = 100.
Proof.
  intros input.
  apply (create_returns "7f9c2e1a" 100 "u1" input []).
  - apply NoDup_nil_2.
  - apply not_elem_of_nil.
Defined.

(** *** Sequences of [update] *)

Lemma set_update_keeps updateData now r :
  id (set_update updateData now r) = id r ∧
  user_id (set_update updateData now r) = user_id r.
Proof. done. Qed.

(** One [update] on an owned module: the stored module is rewritten with
    [modifiedAt = now], or, when a statement fails, left as it was. *)
Lemma update_step now userId moduleId updateData db m :
  owned userId moduleId (rows db) = Some m →
  let db' := (update now userId moduleId updateData db).2 in
  (owned userId moduleId (rows db') = Some (set_update updateData now m) ∨
   owned userId moduleId (rows db') = Some m) ∧
  (faults db = [] →
   owned userId moduleId (rows db') = Some (set_update updateData now m) ∧
   faults db' = []).
Proof.
  intros Ho db'. subst db'. destruct db as [rs fs]. simpl in *.
  assert (Hmap : owned userId moduleId
            ((λ r, if decide (id_and_owner moduleId userId r)
                   then set_update updateData now r else r) <$> rs)
          = Some (set_update updateData now m)).
  { rewrite owned_update by apply set_update_keeps. by rewrite Ho. }
  unfold update, findFirst, update_where, statement. unfold_M. simpl.
  fold (owned userId moduleId rs). rewrite Ho.
  destruct fs as [|[e|] fs]; simpl.
  - split; [by left|]. done.
  - split; [by right|]. done.
  - destruct fs as [|[e|] fs]; simpl; (split; [auto|done]).
Qed.

(** C8, as amended.  [update] writes the reading of [new Date()] into
    [modifiedAt] without comparing it to the stored value.  So, for update
    calls on an owned module stored with [createdAt ≤ modifiedAt], issued at
    non-decreasing clock readings that start no earlier than the module's
    [modifiedAt]: the stored [modifiedAt] never decreases from one call to
    the next and is never below [createdAt], which the calls leave alone; on
    a store without failures each call sets [modifiedAt] to its own clock
    reading. *)
Theorem update_modifiedAt_monotone userId moduleId calls db m0 :
  owned userId moduleId (rows db) = Some m0 →
  createdAt m0 ≤ modifiedAt m0 →
  StronglySorted Z.le (modifiedAt m0 :: calls.*1) →
  ∃ ms,
    update_trace userId moduleId calls db = Some <$> ms ∧
    StronglySorted Z.le (modifiedAt <$> (m0 :: ms)) ∧
    Forall (λ m, createdAt m = createdAt m0 ∧ createdAt m ≤ modifiedAt m) ms ∧
    (faults db = [] → modifiedAt <$> ms = calls.*1).
Proof.
  revert db m0.
  induction calls as [|[now updateData] calls IH]; intros db m Ho Hcm Hs.
  { exists []. repeat split; try done; repeat constructor. }
  simpl in Hs. apply StronglySorted_inv in Hs as [Hs Hall].
  inversion_clear Hall as [|? ? Hnow Hrest].
  destruct (update_step now userId moduleId updateData db m Ho) as [Hcase Hok].
  simpl. set (db' := (update now userId moduleId updateData db).2) in *.
  destruct Hcase as [Ho'|Ho'].
  - destruct (IH db' (set_update updateData now m) Ho') as (ms & Htr & Hsm & Hfa & Hh).
    { simpl. lia. }
    { exact Hs. }
    rewrite fmap_cons in Hsm.
    exists (set_update updateData now m :: ms). rewrite Htr, Ho', !fmap_cons.
    split; [done|]. split.
    { constructor; [exact Hsm|]. simpl in *. constructor; [done|].
      apply StronglySorted_inv in Hsm as [_ Hge].
      eapply Forall_impl; [exact Hge|]. intros; simpl in *; lia. }
    split.
    { constructor; [simpl; lia|]. exact Hfa. }
    intros Hf. destruct (Hok Hf) as [_ Hf'].
    simpl. f_equal. exact (Hh Hf').
  - destruct (IH db' m Ho' Hcm) as (ms & Htr & Hsm & Hfa & Hh).
    { apply StronglySorted_inv in Hs as [Hs' _]. by constructor. }
    rewrite fmap_cons in Hsm.
    exists (m :: ms). rewrite Htr, Ho', !fmap_cons.
    split; [done|]. split.
    { constructor; [exact Hsm|]. constructor; [done|].
      by apply StronglySorted_inv in Hsm as [_ Hge]. }
    split.
    { by constructor. }
    intros Hf. destruct (Hok Hf) as [Ho'' Hf'].
    rewrite Ho'' in Ho'. injection Ho' as <-.
    simpl. f_equal. exact (Hh Hf').
Qed.

Lemma update_modifiedAt_monotone_witness :
  let mine := mkRow "7f9c2e1a" "u1" "Algorithms" (Some "") "CS201"
                "default" "default" false 4 100 100 100 in
  let calls := [(120, mkValues "Algorithms I" None "CS201" "book" "red" 4);
                (120, mkValues "Algorithms II" (Some "graphs") "CS202" "book" "red" 6);
                (300, mkValues "Algorithms II" None "CS202" "default" "default" 0)] in
  ∃ ms,
    update_trace "u1" "7f9c2e1a" calls (healthy [mine]) = Some <$> ms ∧
    StronglySorted Z.le (modifiedAt <$> (mine :: ms)) ∧
    Forall (λ m, createdAt m = createdAt mine ∧ createdAt m ≤ modifiedAt m) ms ∧
    (faults (healthy [mine]) = [] → modifiedAt <$> ms = calls.*1).
Proof.
  intros mine calls.
  apply (update_modifiedAt_monotone "u1" "7f9c2e1a" calls (healthy [mine]) mine).
  - reflexivity.
  - simpl. lia.
  - simpl. repeat constructor; lia.
Defined.

(** C8, as stated, fails when the clock goes back.  A module created at
    100, updated at a reading of 120 and then at a reading of 90: the second
    call stores [modifiedAt = 90], below the 120 of the first call and below
    [createdAt = 100]; so the stored values are not non-decreasing and not
    all at or above [createdAt]. *)
Lemma update_modifiedAt_clock_goes_back :
  (λ o : option ModuleRow, (λ m, (createdAt m, modifiedAt m)) <$> o) <$>
    update_trace "u1" "7f9c2e1a"
      [(120, mkValues "Algorithms I" None "CS201" "book" "red" 4);
       (90, mkValues "Algorithms II" None "CS202" "book" "red" 6)]
      (healthy [mkRow "7f9c2e1a" "u1" "Algorithms" (Some "") "CS201"
                  "default" "default" false 4 100 100 100])
  = [Some (100, 120); Some (100, 90)] ∧
  ¬ (∃ ms : list ModuleRow,
       update_trace "u1" "7f9c2e1a"
         [(120, mkValues "Algorithms I" None "CS201" "book" "red" 4);
          (90, mkValues "Algorithms II" None "CS202" "book" "red" 6)]
         (healthy [mkRow "7f9c2e1a" "u1" "Algorithms" (Some "") "CS201"
                     "default" "default" false 4 100 100 100])
       = Some <$> ms ∧
       StronglySorted Z.le
         (modifiedAt <$>
            (mkRow "7f9c2e1a" "u1" "Algorithms" (Some "") "CS201"
               "default" "default" false 4 100 100 100 :: ms)) ∧
       Forall (λ m, createdAt m ≤ modifiedAt m) ms).
Proof.
  split; [reflexivity|].
  intros (ms & Htrace & _ & Hall).
  vm_compute in Htrace.
  destruct ms as [|m1 [|m2 [|m3 ms]]]; try discriminate Htrace.
  injection Htrace as <- <-.
  apply Forall_cons in Hall as [_ Hall].
  apply Forall_cons in Hall as [H2 _].
  simpl in H2. lia.
Qed.

(** *** Pagination *)

#[local] Instance desc_lastVisited_trans : Transitive desc_lastVisited.
Proof. unfold desc_lastVisited. intros a b c; lia. Qed.

#[local] Instance desc_lastVisited_total : Total desc_lastVisited.
Proof. unfold desc_lastVisited. intros a b; lia. Qed.

Lemma take_StronglySorted {A} (R : relation A) n l :
  StronglySorted R l → StronglySorted R (take n l).
Proof.
  intros Hs. rewrite <- (take_drop n l) in Hs.
  by apply StronglySorted_app_1_l in Hs.
Qed.

(** In a strongly sorted list every element is related to the last one,
    or is the last one. *)
Lemma StronglySorted_last {A} (R : relation A) l x y :
  StronglySorted R l → last l = Some x → y ∈ l → R y x ∨ y = x.
Proof.
  intros Hs Hl Hy. apply last_Some in Hl as [l' ->].
  apply elem_of_app in Hy as [Hy|Hy].
  - left. eapply StronglySorted_app_1_elem_of; [exact Hs|exact Hy|left].
  - right. by apply list_elem_of_singleton in Hy.
Qed.

(** The rows that [findMany] ranks for a page. *)
Lemma ranked_sorted userId d rs :
  StronglySorted desc_lastVisited
    (merge_sort desc_lastVisited (filter (page_where userId d) rs)).
Proof. apply StronglySorted_merge_sort; apply _. Qed.

Lemma ranked_elem_of userId d rs m :
  m ∈ merge_sort desc_lastVisited (filter (page_where userId d) rs) ↔
  page_where userId d m ∧ m ∈ rs.
Proof. by rewrite merge_sort_Permutation, list_elem_of_filter. Qed.

Lemma ranked_length userId d rs :
  length (merge_sort desc_lastVisited (filter (page_where userId d) rs))
  = length (filter (page_where userId d) rs).
Proof. by rewrite merge_sort_Permutation. Qed.

Lemma page_of_items limit (s : list ModuleRow) :
  items (page_of limit (take (limit + 1) s)) = take limit s.
Proof.
  unfold page_of, slice_0_m1. simpl. rewrite length_take.
  case_bool_decide as Hmore.
  - rewrite take_take. f_equal. lia.
  - rewrite !take_ge; [done|lia|lia].
Qed.

Lemma page_of_nextCursor limit (s : list ModuleRow) :
  nextCursor (page_of limit (take (limit + 1) s))
  = if bool_decide (limit < length s)%nat
    then id <$> last (take limit s) else None.
Proof.
  pose proof (page_of_items limit s) as Hitems.
  unfold page_of in *. simpl in *. rewrite length_take in *.
  case_bool_decide as Hmore.
  - rewrite bool_decide_true by lia. by rewrite Hitems.
  - by rewrite bool_decide_false by lia.
Qed.

Lemma cursor_lookup_none rs :
  cursor_lookup None (healthy rs) = (inr None, healthy rs).
Proof. reflexivity. Qed.

Lemma cursor_lookup_found c cm rs :
  c ≠ "" → head (filter (has_id c) rs) = Some cm →
  cursor_lookup (Some c) (healthy rs)
  = (inr (Some (lastVisited cm)), healthy rs).
Proof.
  intros Hc Hh. unfold cursor_lookup, truthy.
  rewrite bool_decide_true by done. unfold_M.
  by rewrite findFirst_healthy, Hh.
Qed.

Lemma cursor_lookup_missing c rs :
  (∀ m, m ∈ rs → id m ≠ c) →
  cursor_lookup (Some c) (healthy rs) = (inr None, healthy rs).
Proof.
  intros Hno. unfold cursor_lookup. destruct (truthy c); [|done].
  unfold_M. rewrite findFirst_healthy.
  assert (filter (has_id c) rs = []) as ->; [|done].
  apply filter_nil_iff. intros m Hm. unfold has_id. by apply Hno.
Qed.

Lemma getUserModules_healthy userId limit cursor rs d :
  cursor_lookup cursor (healthy rs) = (inr d, healthy rs) →
  getUserModules userId limit cursor (healthy rs)
  = (inr (page_of limit
            (take (limit + 1)
               (merge_sort desc_lastVisited
                  (filter (page_where userId d) rs)))),
     healthy rs).
Proof.
  intros Hc. unfold getUserModules. unfold_M. rewrite Hc.
  by rewrite findMany_healthy.
Qed.

(** The primary key identifies a row. *)
Lemma unique_ids_inj rs m1 m2 :
  unique_ids rs → m1 ∈ rs → m2 ∈ rs → id m1 = id m2 → m1 = m2.
Proof.
  unfold unique_ids. induction rs as [|r rs IH]; intros Hnd H1 H2 Hid.
  { by apply not_elem_of_nil in H1. }
  rewrite fmap_cons in Hnd. apply NoDup_cons in Hnd as [Hr Hnd].
  apply elem_of_cons in H1 as [->|H1]; apply elem_of_cons in H2 as [->|H2].
  - done.
  - exfalso. apply Hr. rewrite Hid. apply list_elem_of_fmap. by exists m2.
  - exfalso. apply Hr. rewrite <- Hid. apply list_elem_of_fmap. by exists m1.
  - by apply IH.
Qed.

Lemma findFirst_by_key c rs m :
  unique_ids rs → m ∈ rs → id m = c →
  head (filter (has_id c) rs) = Some m.
Proof.
  intros Hu Hm Hid.
  destruct (head (filter (has_id c) rs)) as [x|] eqn:Hh.
  - apply head_Some_elem_of, list_elem_of_filter in Hh as [Hx Hin].
    unfold has_id in Hx. f_equal.
    apply (unique_ids_inj rs); [done..|congruence].
  - apply head_None in Hh.
    assert (m ∈ filter (has_id c) rs) as Hin
      by (apply list_elem_of_filter; done).
    rewrite Hh in Hin. by apply not_elem_of_nil in Hin.
Qed.

Lemma cursor_lookup_healthy cursor rs :
  ∃ d, cursor_lookup cursor (healthy rs) = (inr d, healthy rs).
Proof.
  destruct cursor as [c|]; [|by eexists].
  unfold cursor_lookup. destruct (truthy c); [|by eexists].
  unfold_M. rewrite findFirst_healthy. by eexists.
Qed.

(** What a page of [getUserModules] is, on a store without failures. *)
Lemma page_facts userId limit cursor rs :
  (1 ≤ limit ≤ 100)%nat →
  ∃ d modules page,
    cursor_lookup cursor (healthy rs) = (inr d, healthy rs) ∧
    findMany (page_where userId d) (limit + 1) (healthy rs)
      = (inr modules, healthy rs) ∧
    getUserModules userId limit cursor (healthy rs)
      = (inr page, healthy rs) ∧
    length modules
      = ((limit + 1) `min` length (filter (page_where userId d) rs))%nat ∧
    items page = take limit modules ∧
    (length (items page) ≤ limit)%nat ∧
    (∀ m, m ∈ items page → m ∈ rs ∧ user_id m = userId) ∧
    StronglySorted desc_lastVisited (items page) ∧
    (∀ c cm, cursor = Some c → c ≠ "" →
       head (filter (has_id c) rs) = Some cm →
       d = Some (lastVisited cm) ∧
       ∀ m, m ∈ items page → lastVisited m < lastVisited cm) ∧
    ((limit < length (filter (page_where userId d) rs))%nat →
       ∃ l, last (items page) = Some l ∧ nextCursor page = Some (id l)) ∧
    ((length (filter (page_where userId d) rs) ≤ limit)%nat →
       nextCursor page = None).
Proof.
  intros Hlimit.
  destruct (cursor_lookup_healthy cursor rs) as [d Hd].
  pose proof (ranked_length userId d rs) as Hlen.
  pose proof (ranked_sorted userId d rs) as Hsorted.
  pose proof (ranked_elem_of userId d rs) as Hmem.
  pose proof (getUserModules_healthy userId limit cursor rs d Hd) as Hget.
  pose proof (findMany_healthy (page_where userId d) (limit + 1) rs) as Hfind.
  remember (merge_sort desc_lastVisited (filter (page_where userId d) rs))
    as s eqn:Hs. clear Hs.
  exists d, (take (limit + 1) s), (page_of limit (take (limit + 1) s)).
  assert (Hitems : items (page_of limit (take (limit + 1) s)) = take limit s)
    by apply page_of_items.
  assert (Hin : ∀ m, m ∈ take limit s → page_where userId d m ∧ m ∈ rs).
  { intros m Hm. apply Hmem. by apply (subseteq_take limit). }
  split; [exact Hd|]. split; [exact Hfind|]. split; [exact Hget|].
  split; [by rewrite length_take, Hlen|].
  split; [rewrite Hitems, take_take; f_equal; lia|].
  split; [rewrite Hitems, length_take; lia|].
  split.
  { intros m Hm. rewrite Hitems in Hm. destruct (Hin m Hm) as [Hw Hrs].
    split; [done|]. unfold page_where in Hw. destruct d; tauto. }
  split; [rewrite Hitems; by apply take_StronglySorted|].
  split.
  { intros c cm -> Hc Hh.
    rewrite (cursor_lookup_found c cm rs Hc Hh) in Hd.
    injection Hd as <-. split; [done|].
    intros m Hm. rewrite Hitems in Hm. destruct (Hin m Hm) as [Hw _].
    unfold page_where in Hw. tauto. }
  rewrite page_of_nextCursor, Hitems, Hlen.
  split.
  - intros Hmore. rewrite bool_decide_true by done.
    assert (is_Some (last (take limit s))) as [l Hl].
    { apply last_is_Some. intros Hnil.
      apply (f_equal length) in Hnil. rewrite length_take, Hlen in Hnil.
      simpl in Hnil. lia. }
    exists l. by rewrite Hl.
  - intros Hle. by rewrite bool_decide_false by lia.
Qed.

(** C5.  [getUserModules] on an input that passes validation, which
    leaves [1 ≤ limit ≤ 100]: the anchor lookup
    yields [d]; [findMany] is asked for [limit + 1] rows and returns that
    many or all the matching ones; the page holds the first [limit] of
    them, all of them modules of the caller, in descending [lastVisited]
    order; with a cursor that names a module, only modules visited strictly
    before that module are returned; [nextCursor] is the id of the last
    returned item when more than [limit] rows match, and absent otherwise. *)
Theorem getUserModules_page userId input limit cursor rs :
  getUserModules_input input = Some (limit, cursor) →
  ∃ d modules page,
    cursor_lookup cursor (healthy rs) = (inr d, healthy rs) ∧
    findMany (page_where userId d) (limit + 1) (healthy rs)
      = (inr modules, healthy rs) ∧
    getUserModules userId limit cursor (healthy rs)
      = (inr page, healthy rs) ∧
    length modules
      = ((limit + 1) `min` length (filter (page_where userId d) rs))%nat ∧
    items page = take limit modules ∧
    (length (items page) ≤ limit)%nat ∧
    (∀ m, m ∈ items page → m ∈ rs ∧ user_id m = userId) ∧
    StronglySorted desc_lastVisited (items page) ∧
    (∀ c cm, cursor = Some c → c ≠ "" →
       head (filter (has_id c) rs) = Some cm →
       d = Some (lastVisited cm) ∧
       ∀ m, m ∈ items page → lastVisited m < lastVisited cm) ∧
    ((limit < length (filter (page_where userId d) rs))%nat →
       ∃ l, last (items page) = Some l ∧ nextCursor page = Some (id l)) ∧
    ((length (filter (page_where userId d) rs) ≤ limit)%nat →
       nextCursor page = None).
Proof.
  intros Hin. apply page_facts.
  unfold getUserModules_input in Hin.
  destruct input as [[l c]|]; [|injection Hin as <- <-; lia].
  case_bool_decide as Hrange; [|done]. by injection Hin as <- <-.
Qed.

Lemma getUserModules_page_witness :
  let row i u t := mkRow i u "Algorithms" (Some "") "CS201"
                     "default" "default" false 4 t t t in
  let rs := [row "a1" "u1" 50; row "b2" "u2" 70; row "c3" "u1" 90;
             row "d4" "u1" 10; row "e5" "u1" 30] in
  ∃ modules page,
    findMany (page_where "u1" (Some 70)) 3 (healthy rs)
      = (inr modules, healthy rs) ∧
    getUserModules "u1" 2 (Some "b2") (healthy rs) = (inr page, healthy rs) ∧
    length modules = 3%nat ∧
    items page = [row "a1" "u1" 50; row "e5" "u1" 30] ∧
    nextCursor page = Some "e5".
Proof.
  intros row rs.
  destruct (getUserModules_page "u1" (Some (Some 2%nat, Some "b2"))
              2 (Some "b2") rs eq_refl)
    as (d & modules & page & Hd & Hfind & Hget & Hlen & _).
  vm_compute in Hd. injection Hd as <-.
  exists modules, page. split; [exact Hfind|]. split; [exact Hget|].
  vm_compute in Hget. injection Hget as <-.
  vm_compute in Hfind. injection Hfind as <-.
  repeat split; reflexivity.
Defined.

(** C2.  A user with more than 20 modules, on a table with a primary key
    of non-empty ids: the first page of 20 holds at most 20 items in
    descending [lastVisited] order and comes with a cursor; the page fetched
    with that cursor, whatever the storage order of the table is by then,
    shares no item and no id with the first. *)
Theorem two_pages_disjoint userId rs rs' :
  unique_ids rs → "" ∉ id <$> rs → rs' ≡ₚ rs →
  (20 < length (modules_of userId rs))%nat →
  ∃ page1 c page2,
    getUserModules userId 20 None (healthy rs) = (inr page1, healthy rs) ∧
    (length (items page1) ≤ 20)%nat ∧
    StronglySorted desc_lastVisited (items page1) ∧
    nextCursor page1 = Some c ∧
    getUserModules userId 20 (Some c) (healthy rs') = (inr page2, healthy rs') ∧
    (∀ m, m ∈ items page1 → m ∉ items page2) ∧
    (∀ m1 m2, m1 ∈ items page1 → m2 ∈ items page2 → id m1 ≠ id m2).
Proof.
  intros Huniq Hne Hperm Hmany.
  destruct (page_facts userId 20 None rs ltac:(lia))
    as (d & modules & page1 & Hd & _ & Hget1 & _ & _ & Hlen1 & Hin1 & Hs1
        & _ & Hmore & _).
  rewrite cursor_lookup_none in Hd. injection Hd as <-.
  destruct (Hmore Hmany) as (l & Hlast & Hnext).
  assert (Hl1 : l ∈ items page1) by by apply last_Some_elem_of.
  destruct (Hin1 l Hl1) as [Hlrs _].
  assert (Hlne : id l ≠ "").
  { intros Hempty. apply Hne. rewrite <- Hempty.
    apply list_elem_of_fmap. by exists l. }
  assert (Huniq' : unique_ids rs').
  { unfold unique_ids in *. by rewrite Hperm. }
  assert (Hfound : head (filter (has_id (id l)) rs') = Some l).
  { apply findFirst_by_key; [done| |done]. by rewrite Hperm. }
  destruct (page_facts userId 20 (Some (id l)) rs' ltac:(lia))
    as (d2 & modules2 & page2 & _ & _ & Hget2 & _ & _ & _ & Hin2 & _
        & Hcur & _).
  destruct (Hcur (id l) l eq_refl Hlne Hfound) as [_ Hbefore].
  assert (Hsep : ∀ m1 m2, m1 ∈ items page1 → m2 ∈ items page2 → m1 ≠ m2).
  { intros m1 m2 H1 H2 ->. specialize (Hbefore m2 H2).
    destruct (StronglySorted_last _ _ l m2 Hs1 Hlast H1) as [Hd | ->].
    - unfold desc_lastVisited in Hd. lia.
    - lia. }
  exists page1, (id l), page2.
  split; [exact Hget1|]. split; [exact Hlen1|]. split; [exact Hs1|].
  split; [exact Hnext|]. split; [exact Hget2|]. split.
  - intros m H1 H2. by apply (Hsep m m H1 H2).
  - intros m1 m2 H1 H2 Hid. apply (Hsep m1 m2 H1 H2).
    apply (unique_ids_inj rs); [done|by apply Hin1| |done].
    rewrite <- Hperm. by apply Hin2.
Qed.

Lemma two_pages_disjoint_witness :
  let row i t := mkRow i "u1" "Algorithms" (Some "") "CS201"
                   "default" "default" false 4 t t t in
  let rs := imap (λ k i, row i (Z.of_nat (k `div` 3)))
              ["m01"; "m02"; "m03"; "m04"; "m05"; "m06"; "m07"; "m08";
               "m09"; "m10"; "m11"; "m12"; "m13"; "m14"; "m15"; "m16";
               "m17"; "m18"; "m19"; "m20"; "m21"; "m22"; "m23"] in
  ∃ page1 c page2,
    getUserModules "u1" 20 None (healthy rs) = (inr page1, healthy rs) ∧
    (length (items page1) ≤ 20)%nat ∧
    StronglySorted desc_lastVisited (items page1) ∧
    nextCursor page1 = Some c ∧
    getUserModules "u1" 20 (Some c) (healthy (reverse rs))
      = (inr page2, healthy (reverse rs)) ∧
    (∀ m, m ∈ items page1 → m ∉ items page2) ∧
    (∀ m1 m2, m1 ∈ items page1 → m2 ∈ items page2 → id m1 ≠ id m2).
Proof.
  intros row rs.
  apply (two_pages_disjoint "u1" rs (reverse rs)).
  - refine (bool_decide_unpack _ _). vm_compute. exact I.
  - refine (bool_decide_unpack _ _). vm_compute. exact I.
  - apply reverse_Permutation.
  - vm_compute. lia.
Defined.

(** *** The anchor lookup is not scoped to the caller *)

(** C10.  With a cursor that is the id of another user's module, the page
    of the caller is the one bounded by that module's [lastVisited]; with a
    cursor that is the id of no module, the call is the call without
    cursor; and two tables that agree on the caller's rows and differ only
    in the other user's [lastVisited] give the caller different pages. *)
Theorem cursor_anchor_not_scoped userId other limit c :
  c ≠ "" → other ≠ userId →
  (∀ rs cm,
     head (filter (has_id c) rs) = Some cm → user_id cm = other →
     ∃ modules page,
       findMany (page_where userId (Some (lastVisited cm))) (limit + 1)
         (healthy rs) = (inr modules, healthy rs) ∧
       getUserModules userId limit (Some c) (healthy rs)
         = (inr page, healthy rs) ∧
       page = page_of limit modules ∧
       ∀ m, m ∈ items page → lastVisited m < lastVisited cm) ∧
  (∀ rs,
     (∀ m, m ∈ rs → id m ≠ c) →
     getUserModules userId limit (Some c) (healthy rs)
     = getUserModules userId limit None (healthy rs)) ∧
  (∀ mine,
     user_id mine = userId → id mine ≠ c → (1 ≤ limit)%nat →
     let theirs t :=
       mkRow c other "" None "" "default" "default" false 0 t t t in
     (getUserModules userId limit (Some c)
        (healthy [theirs (lastVisited mine + 1); mine])).1
       = inr {| items := [mine]; nextCursor := None |} ∧
     (getUserModules userId limit (Some c)
        (healthy [theirs (lastVisited mine); mine])).1
       = inr {| items := []; nextCursor := None |}).
Proof.
  intros Hc Hother. split; [|split].
  - intros rs cm Hh _.
    pose proof (cursor_lookup_found c cm rs Hc Hh) as Hd.
    rewrite (getUserModules_healthy _ _ _ _ _ Hd), findMany_healthy.
    eexists _, _. split; [reflexivity|]. split; [reflexivity|].
    split; [reflexivity|].
    intros m Hm. rewrite page_of_items in Hm.
    apply (subseteq_take limit), ranked_elem_of in Hm as [Hw _].
    unfold page_where in Hw. tauto.
  - intros rs Hno.
    rewrite (getUserModules_healthy _ _ _ _ _ (cursor_lookup_missing c rs Hno)).
    by rewrite (getUserModules_healthy _ _ _ _ _ (cursor_lookup_none rs)).
  - intros mine Hmine Hid Hlimit theirs.
    assert (Hfound : ∀ t, head (filter (has_id c) [theirs t; mine])
                          = Some (theirs t)).
    { intros t. rewrite filter_cons. by rewrite decide_True. }
    assert (Htake : take (limit + 1) [mine] = [mine])
      by (apply take_ge; simpl; lia).
    split.
    + rewrite (getUserModules_healthy _ _ _ _ _
                 (cursor_lookup_found c _ _ Hc (Hfound _))). simpl.
      rewrite filter_cons, decide_False
        by (unfold page_where; simpl; tauto).
      rewrite filter_cons, decide_True
        by (unfold page_where; simpl; split; [done|lia]).
      rewrite filter_nil. unfold merge_sort; simpl. rewrite Htake.
      unfold page_of; simpl. by rewrite bool_decide_false by lia.
    + rewrite (getUserModules_healthy _ _ _ _ _
                 (cursor_lookup_found c _ _ Hc (Hfound _))). simpl.
      rewrite filter_cons, decide_False
        by (unfold page_where; simpl; tauto).
      rewrite filter_cons, decide_False
        by (unfold page_where; simpl; lia).
      rewrite filter_nil. unfold merge_sort; simpl. by rewrite take_nil.
Qed.

Lemma cursor_anchor_not_scoped_witness :
  let mine := mkRow "a1" "u1" "Algorithms" (Some "") "CS201"
                "default" "default" false 4 50 50 50 in
  let theirs t :=
    mkRow "b2" "u2" "" None "" "default" "default" false 0 t t t in
  ((getUserModules "u1" 2 (Some "b2") (healthy [theirs 51; mine])).1
     = inr {| items := [mine]; nextCursor := None |} ∧
   (getUserModules "u1" 2 (Some "b2") (healthy [theirs 50; mine])).1
     = inr {| items := []; nextCursor := None |}) ∧
  getUserModules "u1" 2 (Some "b2") (healthy [mine])
  = getUserModules "u1" 2 None (healthy [mine]).
Proof.
  intros mine theirs.
  destruct (cursor_anchor_not_scoped "u1" "u2" 2 "b2") as (_ & H2 & H3);
    [discriminate|discriminate|].
  split.
  - apply (H3 mine); [reflexivity|discriminate|lia].
  - apply (H2 [mine]). intros m Hm.
    apply list_elem_of_singleton in Hm. subst m. discriminate.
Defined.

(** Equal timestamps at the page boundary: three modules visited at the
    same time, pages of two; the first page has two of them and a cursor,
    the page behind that cursor is empty, so the third is on neither. *)
Example tie_at_boundary_skips_row :
  let row i := mkRow i "u1" "Algorithms" (Some "") "CS201"
                 "default" "default" false 4 100 100 100 in
  let rs := [row "a1"; row "b2"; row "c3"] in
  ∃ page1 c,
    (getUserModules "u1" 2 None (healthy rs)).1 = inr page1 ∧
    length (items page1) = 2%nat ∧
    nextCursor page1 = Some c ∧
    (getUserModules "u1" 2 (Some c) (healthy rs)).1
      = inr {| items := []; nextCursor := None |}.
Proof.
  intros row rs. eexists _, _.
  split; [reflexivity|]. split; [reflexivity|]. split; reflexivity.
Qed.

End module_properties.

(** * Further properties *)

(** ** Rate limiter *)

Section rate_limit_further.
Import RateLimit.

Lemma key_of_inj a b : key_of a = key_of b → a = b.
Proof. unfold key_of. simpl. intros H. by simplify_eq. Qed.

Ltac solve_agree :=
  unfold agree_on in *; simpl;
  rewrite ?lookup_insert_eq, ?lookup_delete_eq;
  repeat split; congruence.

(** Each store operation on a key sees the store only through that key. *)
Lemma redis_incr_agree k r1 r2 :
  agree_on k r1 r2 →
  (redis_incr k r1).1 = (redis_incr k r2).1 ∧
  agree_on k (redis_incr k r1).2 (redis_incr k r2).2.
Proof.
  intros Hag. pose proof Hag as (Hc & Hd & Hk).
  unfold redis_incr, live. rewrite Hd, Hk, Hc.
  destruct (down r2) eqn:Hdown; [done|].
  destruct (data r2 !! k) as [e|]; [destruct (expired (clock r2) e)|];
    simpl; (split; [done|]); solve_agree.
Qed.

Lemma redis_expire_agree k seconds r1 r2 :
  agree_on k r1 r2 →
  (redis_expire k seconds r1).1 = (redis_expire k seconds r2).1 ∧
  agree_on k (redis_expire k seconds r1).2 (redis_expire k seconds r2).2.
Proof.
  intros Hag. pose proof Hag as (Hc & Hd & Hk).
  unfold redis_expire, live. rewrite Hd, Hk, Hc.
  destruct (down r2) eqn:Hdown; [done|].
  destruct (data r2 !! k) as [e|]; [destruct (expired (clock r2) e)|];
    simpl; try done.
  destruct (seconds <=? 0); simpl; (split; [done|]); solve_agree.
Qed.

Lemma redis_ttl_agree k r1 r2 :
  agree_on k r1 r2 →
  (redis_ttl k r1).1 = (redis_ttl k r2).1 ∧
  agree_on k (redis_ttl k r1).2 (redis_ttl k r2).2.
Proof.
  intros Hag. pose proof Hag as (Hc & Hd & Hk).
  unfold redis_ttl, live. rewrite Hd, Hk, Hc.
  destruct (down r2) eqn:Hdown; [done|].
  destruct (data r2 !! k) as [e|]; [destruct (expired (clock r2) e)|];
    simpl; try done.
  destruct (expireAt e); simpl; done.
Qed.

(** The answer of [rateLimit] depends on the store only through its
    clock, its reachability and the entry of the identifier's key. *)
Lemma rateLimit_agree now identifier limit window (r1 r2 : Redis) :
  agree_on (key_of identifier) r1 r2 →
  (rateLimit now identifier limit window r1).1
  = (rateLimit now identifier limit window r2).1 ∧
  agree_on (key_of identifier)
    (rateLimit now identifier limit window r1).2
    (rateLimit now identifier limit window r2).2.
Proof.
  intros Hag.
  unfold rateLimit, rateLimit_try, mbind, M_bind, mret, M_ret; simpl.
  destruct (redis_incr_agree _ _ _ Hag) as [H1 Hag1].
  destruct (redis_incr (key_of identifier) r1) as [[e1|c1] s1],
           (redis_incr (key_of identifier) r2) as [[e2|c2] s2];
    simpl in *; try done.
  injection H1 as <-.
  destruct (c1 =? 1).
  - destruct (redis_expire_agree _ window _ _ Hag1) as [H2 Hag2].
    destruct (redis_expire (key_of identifier) window s1) as [[e1|x1] s1'],
             (redis_expire (key_of identifier) window s2) as [[e2|x2] s2'];
      simpl in *; try done.
    destruct (redis_ttl_agree _ _ _ Hag2) as [H3 Hag3].
    destruct (redis_ttl (key_of identifier) s1') as [[e1|y1] s1''],
             (redis_ttl (key_of identifier) s2') as [[e2|y2] s2''];
      simpl in *; try done.
    by injection H3 as <-.
  - destruct (redis_ttl_agree _ _ _ Hag1) as [H3 Hag3].
    destruct (redis_ttl (key_of identifier) s1) as [[e1|y1] s1''],
             (redis_ttl (key_of identifier) s2) as [[e2|y2] s2''];
      simpl in *; try done.
    by injection H3 as <-.
Qed.

(** A store operation on one key leaves every other key alone. *)
Lemma redis_incr_frame k k' r :
  k ≠ k' → agree_on k' (redis_incr k r).2 r.
Proof.
  intros Hne. unfold redis_incr, agree_on.
  destruct (down r) eqn:Hd; [done|]. destruct (live r k); simpl;
    by rewrite lookup_insert_ne.
Qed.

Lemma redis_expire_frame k k' seconds r :
  k ≠ k' → agree_on k' (redis_expire k seconds r).2 r.
Proof.
  intros Hne. unfold redis_expire, agree_on.
  destruct (down r) eqn:Hd; [done|]. destruct (live r k); simpl; [|done].
  destruct (seconds <=? 0); simpl.
  - by rewrite lookup_delete_ne.
  - by rewrite lookup_insert_ne.
Qed.

Lemma redis_ttl_frame k k' r : agree_on k' (redis_ttl k r).2 r.
Proof.
  unfold redis_ttl, agree_on. destruct (down r) eqn:Hd; [done|].
  destruct (live r k) as [e|]; [destruct (expireAt e)|]; done.
Qed.

Lemma agree_on_trans k r1 r2 r3 :
  agree_on k r1 r2 → agree_on k r2 r3 → agree_on k r1 r3.
Proof. unfold agree_on. intros (-> & -> & ->) (-> & -> & ->). done. Qed.

Lemma rateLimit_frame now a b limit window (r : Redis) :
  a ≠ b → agree_on (key_of b) (rateLimit now a limit window r).2 r.
Proof.
  intros Hne.
  assert (Hk : key_of a ≠ key_of b) by (intros H; by apply key_of_inj in H).
  unfold rateLimit, rateLimit_try, mbind, M_bind, mret, M_ret; simpl.
  pose proof (redis_incr_frame _ _ r Hk) as H1.
  destruct (redis_incr (key_of a) r) as [[e1|c1] s1]; simpl in *; [done|].
  destruct (c1 =? 1).
  - pose proof (redis_expire_frame _ _ window s1 Hk) as H2.
    destruct (redis_expire (key_of a) window s1) as [[e2|x2] s2]; simpl in *.
    { by eapply agree_on_trans. }
    pose proof (redis_ttl_frame (key_of a) (key_of b) s2) as H3.
    destruct (redis_ttl (key_of a) s2) as [[e3|y3] s3]; simpl in *;
      eapply agree_on_trans; [exact H3| |exact H3|];
      by eapply agree_on_trans.
  - pose proof (redis_ttl_frame (key_of a) (key_of b) s1) as H3.
    destruct (redis_ttl (key_of a) s1) as [[e3|y3] s3]; simpl in *;
      by eapply agree_on_trans.
Qed.

Lemma agree_on_set_clock k t r1 r2 :
  down r1 = down r2 → data r1 !! k = data r2 !! k →
  agree_on k (set_clock t r1) (set_clock t r2).
Proof. unfold agree_on. simpl. done. Qed.

Lemma calls_agree identifier limit window times : ∀ r1 r2,
  down r1 = down r2 →
  data r1 !! key_of identifier = data r2 !! key_of identifier →
  calls identifier limit window times r1
  = calls identifier limit window times r2.
Proof.
  induction times as [|t times IH]; intros r1 r2 Hd Hk; [done|]. simpl.
  destruct (rateLimit_agree t identifier limit window
              (set_clock t r1) (set_clock t r2)) as [Hres (_ & Hd' & Hk')].
  { by apply agree_on_set_clock. }
  destruct (rateLimit t identifier limit window (set_clock t r1)) as [x1 s1],
           (rateLimit t identifier limit window (set_clock t r2)) as [x2 s2].
  simpl in *. subst x2. f_equal. by apply IH.
Qed.

Lemma calls_end_frame a b limit window times : ∀ r,
  a ≠ b →
  down (calls_end a limit window times r) = down r ∧
  data (calls_end a limit window times r) !! key_of b = data r !! key_of b.
Proof.
  induction times as [|t times IH]; intros r Hne; [done|]. simpl.
  destruct (IH (rateLimit t a limit window (set_clock t r)).2 Hne) as [-> ->].
  destruct (rateLimit_frame t a b limit window (set_clock t r) Hne)
    as (_ & Hd & Hk).
  done.
Qed.

(** X1.  Calls for one identifier do not consume the quota of another:
    after any burst of calls for [a], the calls for [b] get the answers
    they would have got without it. *)
Theorem rateLimit_identifiers_independent
    a b limit_a window_a times_a limit window times (r : Redis) :
  a ≠ b →
  calls b limit window times (calls_end a limit_a window_a times_a r)
  = calls b limit window times r.
Proof.
  intros Hne.
  destruct (calls_end_frame a b limit_a window_a times_a r Hne) as [Hd Hk].
  by apply calls_agree.
Qed.

Lemma rateLimit_identifiers_independent_witness :
  let r := {| clock := 0; data := ∅; down := false |} in
  calls "u2" 1 60 [500; 900]
    (calls_end "u1" 3 60 [0; 100; 200; 300; 400] r)
  = calls "u2" 1 60 [500; 900] r.
Proof.
  intros r.
  apply (rateLimit_identifiers_independent "u1" "u2" 3 60
           [0; 100; 200; 300; 400] 1 60 [500; 900] r).
  discriminate.
Defined.

(** The store after the calls of a window: still reachable, the counter
    still under the expiry set by the first call. *)
Lemma calls_end_entry identifier limit window times : ∀ r n T,
  down r = false →
  data r !! key_of identifier = Some {| value := n; expireAt := Some T |} →
  1 ≤ n → Forall (λ t, t < T) times →
  down (calls_end identifier limit window times r) = false ∧
  data (calls_end identifier limit window times r) !! key_of identifier
  = Some {| value := n + Z.of_nat (length times); expireAt := Some T |}.
Proof.
  induction times as [|t times IH]; intros r n T Hup Hk Hn Hall.
  { simpl. split; [done|]. rewrite Hk. do 2 f_equal. lia. }
  inversion_clear Hall as [|? ? Ht Hts].
  destruct (rateLimit_next identifier limit window t r n T Hup Hk Hn Ht)
    as (res0 & r' & Hcall & _ & _ & Hup' & Hk').
  simpl. rewrite Hcall. simpl.
  destruct (IH r' (n + 1) T Hup' Hk' ltac:(lia) Hts) as [Hd ->].
  split; [done|]. do 2 f_equal. lia.
Qed.

(** The answers of a window opened on a fresh counter. *)
Lemma fresh_window_nth identifier limit window t1 times (r : Redis) :
  down r = false → fresh identifier t1 r →
  Forall (within_window t1 window) (t1 :: times) →
  ∀ (N : nat) res, (1 ≤ N)%nat →
    calls identifier limit window (t1 :: times) r !! (N - 1)%nat = Some res →
    success res = (Z.of_nat N <=? limit) ∧
    remaining res = Z.max 0 (limit - Z.of_nat N).
Proof.
  intros Hup Hfresh Hwin N res HN Hlook.
  inversion Hwin as [|? ? Hw1 Hws]; subst.
  assert (Hw : 0 < window) by (unfold within_window in Hw1; lia).
  destruct (rateLimit_first identifier limit window t1 r Hup Hfresh Hw)
    as (res1 & r1 & Hcall & Hs1 & Hr1 & Hup1 & Hk1).
  assert (Hlt : Forall (λ t, t < t1 + window * 1000) times).
  { eapply Forall_impl; [exact Hws|]. unfold within_window. intros; simpl; lia. }
  destruct (calls_counted identifier limit window times r1 1 _ Hup1 Hk1
              ltac:(lia) Hlt) as [_ Hrest].
  simpl in Hlook. rewrite Hcall in Hlook.
  destruct N as [|[|N]]; [lia| |]; simpl in Hlook.
  - injection Hlook as <-. by rewrite Hs1, Hr1.
  - destruct (Hrest N res Hlook) as [-> ->]. split; f_equal; lia.
Qed.

(** X2.  Once the window has elapsed the counter starts again: after any
    calls inside a first window, the calls of a window opened at or after
    its end are counted from one. *)
Theorem rateLimit_window_resets
    identifier limit window t1 times t2 times2 (r : Redis) :
  down r = false → fresh identifier t1 r →
  Forall (within_window t1 window) (t1 :: times) →
  t1 + window * 1000 ≤ t2 →
  Forall (within_window t2 window) (t2 :: times2) →
  ∀ (N : nat) res, (1 ≤ N)%nat →
    calls identifier limit window (t2 :: times2)
      (calls_end identifier limit window (t1 :: times) r) !! (N - 1)%nat
    = Some res →
    (success res = true ↔ Z.of_nat N ≤ limit) ∧
    remaining res = Z.max 0 (limit - Z.of_nat N).
Proof.
  intros Hup Hfresh Hwin Hafter Hwin2 N res HN Hlook.
  inversion Hwin as [|? ? Hw1 Hws]; subst.
  assert (Hw : 0 < window) by (unfold within_window in Hw1; lia).
  destruct (rateLimit_first identifier limit window t1 r Hup Hfresh Hw)
    as (res1 & r1 & Hcall & _ & _ & Hup1 & Hk1).
  assert (Hlt : Forall (λ t, t < t1 + window * 1000) times).
  { eapply Forall_impl; [exact Hws|]. unfold within_window. intros; simpl; lia. }
  destruct (calls_end_entry identifier limit window times r1 1 _ Hup1 Hk1
              ltac:(lia) Hlt) as [Hup' Hk'].
  assert (Hend : calls_end identifier limit window (t1 :: times) r
                 = calls_end identifier limit window times r1).
  { simpl. by rewrite Hcall. }
  rewrite Hend in Hlook.
  assert (Hfresh2 : fresh identifier t2
                      (calls_end identifier limit window times r1)).
  { unfold fresh, live. simpl. rewrite Hk'. unfold expired; simpl.
    destruct (t1 + window * 1000 <=? t2) eqn:E; [done|lia]. }
  destruct (fresh_window_nth identifier limit window t2 times2 _
              Hup' Hfresh2 Hwin2 N res HN Hlook) as [-> ->].
  split; [|done]. destruct (Z.of_nat N <=? limit) eqn:E; split; try done; lia.
Qed.

Lemma rateLimit_window_resets_witness :
  let r := {| clock := 0; data := ∅; down := false |} in
  ∃ res,
    calls "u1" 1 60 [60000; 60001]
      (calls_end "u1" 1 60 [0; 10; 59999] r) !! 0%nat = Some res ∧
    (success res = true ↔ Z.of_nat 1 ≤ 1) ∧
    remaining res = Z.max 0 (1 - Z.of_nat 1).
Proof.
  intros r. eexists. split; [reflexivity|].
  apply (rateLimit_window_resets "u1" 1 60 0 [10; 59999] 60000 [60001] r).
  - reflexivity.
  - reflexivity.
  - unfold within_window. repeat constructor; lia.
  - lia.
  - unfold within_window. repeat constructor; lia.
  - lia.
  - reflexivity.
Defined.

(** X3.  Whatever the store client does: a refused call reports nothing
    remaining and is never the outcome of a store failure, and with a
    non-negative limit [remaining] is never negative. *)
Theorem rateLimit_refusal {St} `{!RedisClient St}
    now identifier limit window (s : St) :
  let res := (rateLimit now identifier limit window s).1 in
  (success res = false →
     remaining res = 0 ∧ ¬ store_fails identifier window s) ∧
  (0 ≤ limit → 0 ≤ remaining res).
Proof.
  unfold store_fails, rateLimit, rateLimit_try, mbind, M_bind, mret, M_ret.
  simpl. destruct (incr (key_of identifier) s) as [[e|count] s1]; simpl.
  { split; [done|lia]. }
  assert (Hok : ∀ s2 : St,
    let res := (match ttl (key_of identifier) s2 with
                | (inl e, s') => (inl e, s')
                | (inr a, s') =>
                    (inr {| success := count <=? limit;
                            remaining := 0 `max` (limit - count);
                            reset := now + a * 1000 |}, s')
                end) in
    let out := (match res with
                | (inl _, s') =>
                    ({| success := true; remaining := limit;
                        reset := now + window * 1000 |}, s')
                | (inr r, s') => (r, s')
                end).1 in
    (success out = false →
       remaining out = 0 ∧
       ¬ match ttl (key_of identifier) s2 with
         | (inl _, _) => True
         | (inr _, _) => False
         end) ∧
    (0 ≤ limit → 0 ≤ remaining out)).
  { intros s2. simpl.
    destruct (ttl (key_of identifier) s2) as [[e|a] s3]; simpl.
    - split; [done|lia].
    - split; [|lia]. intros Hs. apply Z.leb_gt in Hs. split; [lia|tauto]. }
  destruct (count =? 1).
  - destruct (expire (key_of identifier) window s1) as [[e|x] s2]; simpl.
    { split; [done|lia]. }
    apply Hok.
  - apply Hok.
Qed.

Lemma rateLimit_refusal_witness :
  let r := {| clock := 0; data := ∅; down := false |} in
  let res := (rateLimit 0 "u1" 0 60 r).1 in
  success res = false ∧ remaining res = 0 ∧ ¬ store_fails "u1" 60 r.
Proof.
  intros r res.
  destruct (rateLimit_refusal 0 "u1" 0 60 r) as [H _].
  split; [reflexivity|]. apply H. reflexivity.
Defined.

End rate_limit_further.

(** ** Module router *)

Section module_further.
Import Modules.

Ltac unfold_M := unfold mbind, M_bind, mret, M_ret, try_catch, throw.

(** *** What one call does to the table *)

Lemma statement_read_rows {A} (g : list ModuleRow → exn + A) db :
  rows (statement (λ rs, (g rs, rs)) db).2 = rows db.
Proof. unfold statement. by destruct (faults db) as [|[e|] fs]. Qed.

Lemma getById_rows userId input_id db :
  rows (getById userId input_id db).2 = rows db.
Proof.
  unfold getById, findFirst. unfold_M.
  pose proof (statement_read_rows
    (λ rs, inr (head (filter (id_and_owner input_id userId) rs))) db) as H.
  destruct (statement _ db) as [[e|[m|]] s']; simpl in *; try done.
  by destruct e.
Qed.

Lemma cursor_lookup_rows cursor db :
  rows (cursor_lookup cursor db).2 = rows db.
Proof.
  unfold cursor_lookup, findFirst. destruct cursor as [c|]; [|done].
  destruct (truthy c); [|done]. unfold_M.
  pose proof (statement_read_rows
    (λ rs, inr (head (filter (has_id c) rs))) db) as H.
  by destruct (statement _ db) as [[e|m] s'].
Qed.

Lemma getUserModules_rows userId limit cursor db :
  rows (getUserModules userId limit cursor db).2 = rows db.
Proof.
  unfold getUserModules. unfold_M.
  pose proof (cursor_lookup_rows cursor db) as H.
  destruct (cursor_lookup cursor db) as [[e|d] s']; simpl in *; [done|].
  unfold findMany.
  pose proof (statement_read_rows
    (λ rs, inr (take (limit + 1)
                  (merge_sort desc_lastVisited
                     (filter (page_where userId d) rs)))) s') as H'.
  destruct (statement _ s') as [[e|m] s'']; simpl in *; congruence.
Qed.

Lemma update_where_rows (P : ModuleRow → Prop) `{!∀ t, Decision (P t)} set db :
  rows (update_where P set db).2 = rows db ∨
  rows (update_where P set db).2
  = (λ r, if decide (P r) then set r else r) <$> rows db.
Proof. unfold update_where. apply statement_rows. Qed.

Lemma update_rows now userId moduleId updateData db :
  rows (update now userId moduleId updateData db).2 = rows db ∨
  rows (update now userId moduleId updateData db).2
  = (λ r, if decide (id_and_owner moduleId userId r)
          then set_update updateData now r else r) <$> rows db.
Proof.
  unfold update, findFirst. unfold_M.
  pose proof (statement_read_rows
    (λ rs, inr (head (filter (id_and_owner moduleId userId) rs))) db) as H.
  destruct (statement _ db) as [[e|[m|]] s']; simpl in *; [by left| |by left].
  rewrite <- H. apply update_where_rows.
Qed.

Lemma create_rows uuid now userId input db :
  rows (create uuid now userId input db).2 = rows db ∨
  ∃ row, (id row ∉ id <$> rows db) ∧ user_id row = userId ∧
         rows (create uuid now userId input db).2 = rows db ++ [row].
Proof.
  unfold create, insert_returning.
  match goal with |- context [statement ?f db] =>
    destruct (statement_rows f db) as [H|H] end; [by left|].
  simpl in H. destruct (decide (uuid ∈ id <$> rows db)) as [Hin|Hnin].
  - by left.
  - right. eexists. split; [|split; [|exact H]]; done.
Qed.

(** After one call of the router the table is as before, or the rows
    matching an id and the caller are rewritten by a function that keeps
    [id], [user_id] and [createdAt], or a row of the caller with a new id
    is appended. *)
Lemma modulesRouter_rows userId c db :
  rows (modulesRouter userId c db) = rows db ∨
  (∃ i set,
     (∀ r, id (set r) = id r ∧ user_id (set r) = user_id r ∧
           createdAt (set r) = createdAt r) ∧
     rows (modulesRouter userId c db)
     = (λ r, if decide (id_and_owner i userId r) then set r else r)
         <$> rows db) ∨
  (∃ row, (id row ∉ id <$> rows db) ∧ user_id row = userId ∧
          rows (modulesRouter userId c db) = rows db ++ [row]).
Proof.
  destruct c as [i|limit cursor|uuid now input|i|i|now i d|now i]; simpl.
  - left. apply getById_rows.
  - left. apply getUserModules_rows.
  - destruct (create_rows uuid now userId input db) as [H|H]; auto.
  - destruct (update_where_rows (id_and_owner i userId) (set_archived true) db)
      as [H|H]; [by left|].
    right; left. exists i, (set_archived true). done.
  - destruct (update_where_rows (id_and_owner i userId) (set_archived false) db)
      as [H|H]; [by left|].
    right; left. exists i, (set_archived false). done.
  - destruct (update_rows now userId i d db) as [H|H]; [by left|].
    right; left. exists i, (set_update d now). done.
  - destruct (update_where_rows (id_and_owner i userId)
                (set_lastVisited now) db) as [H|H]; [by left|].
    right; left. exists i, (set_lastVisited now). done.
Qed.

(** *** Invariants of the router *)

Lemma scoped_rewrite_fmap {B} (f : ModuleRow → B) i userId set
    (rs : list ModuleRow) :
  (∀ r, f (set r) = f r) →
  f <$> ((λ r, if decide (id_and_owner i userId r) then set r else r) <$> rs)
  = f <$> rs.
Proof.
  intros Hf. rewrite <- list_fmap_compose. apply list_fmap_ext.
  intros k r _. simpl. by destruct (decide (id_and_owner i userId r)).
Qed.

Lemma scoped_rewrite_other i userId other set rs :
  other ≠ userId →
  (∀ r, user_id (set r) = user_id r) →
  modules_of other
    ((λ r, if decide (id_and_owner i userId r) then set r else r) <$> rs)
  = modules_of other rs.
Proof.
  intros Hne Hkeep. unfold modules_of.
  induction rs as [|r rs IH]; [done|].
  rewrite fmap_cons, !filter_cons, IH.
  destruct (decide (id_and_owner i userId r)) as [[_ Hu]|_]; [|done].
  rewrite !decide_False; [done|congruence|rewrite Hkeep; congruence].
Qed.

(** X4.  The primary key is an invariant of the router: whatever calls
    are made, by whatever users and with whatever failures of the store,
    no two rows ever share an id. *)
Theorem unique_ids_invariant trace db :
  unique_ids (rows db) → unique_ids (rows (run trace db)).
Proof.
  revert db. induction trace as [|[u c] trace IH]; intros db Hu; [done|].
  simpl. apply IH.
  destruct (modulesRouter_rows u c db)
    as [->|[(i & set & Hkeep & ->)|(row & Hnew & _ & ->)]].
  - done.
  - unfold unique_ids in *. rewrite scoped_rewrite_fmap; [done|].
    intros r. by destruct (Hkeep r).
  - unfold unique_ids in *. rewrite fmap_app. simpl.
    apply NoDup_app. split; [done|]. split; [|apply NoDup_singleton].
    intros x Hx Hx'. apply list_elem_of_singleton in Hx'. by subst.
Qed.

Lemma unique_ids_invariant_witness :
  let mine := mkRow "7f9c2e1a" "u1" "Algorithms" (Some "") "CS201"
                "default" "default" false 4 100 100 100 in
  let data := mkValues "Logic" None "CS101" "default" "default" 2 in
  unique_ids
    (rows (run [("u2", Create "7f9c2e1a" 110 data);
                ("u2", Create "0b1d4c33" 120 data);
                ("u1", Update 130 "7f9c2e1a" data);
                ("u2", Archive "0b1d4c33")]
             (healthy [mine]))).
Proof.
  intros mine data. apply unique_ids_invariant.
  refine (bool_decide_unpack _ _). vm_compute. exact I.
Defined.

(** X5.  Writes are scoped to the caller: calls made by other users, of
    any kind and with any input, leave a user's modules exactly as they
    were. *)
Theorem other_users_cannot_write other trace db :
  Forall (λ call, call.1 ≠ other) trace →
  modules_of other (rows (run trace db)) = modules_of other (rows db).
Proof.
  revert db. induction trace as [|[u c] trace IH]; intros db Hall; [done|].
  inversion_clear Hall as [|? ? Hu Hrest]. simpl in *.
  rewrite (IH _ Hrest).
  destruct (modulesRouter_rows u c db)
    as [->|[(i & set & Hkeep & ->)|(row & _ & Hrow & ->)]].
  - done.
  - apply scoped_rewrite_other; [congruence|].
    intros r. by destruct (Hkeep r) as (_ & ? & _).
  - unfold modules_of. rewrite filter_app, filter_cons, filter_nil.
    rewrite decide_False by congruence. by rewrite app_nil_r.
Qed.

Lemma other_users_cannot_write_witness :
  let mine := mkRow "7f9c2e1a" "u1" "Algorithms" (Some "") "CS201"
                "default" "default" false 4 100 100 100 in
  let data := mkValues "Logic" None "CS101" "default" "default" 2 in
  modules_of "u1"
    (rows (run [("u2", Update 130 "7f9c2e1a" data);
                ("u2", Archive "7f9c2e1a");
                ("u3", UpdateLastVisited 140 "7f9c2e1a");
                ("u2", Create "0b1d4c33" 150 data)]
             (healthy [mine])))
  = modules_of "u1" (rows (healthy [mine])).
Proof.
  intros mine data. apply other_users_cannot_write.
  repeat constructor; discriminate.
Defined.

(** X6.  Nothing is ever deleted or re-keyed: after any calls the table
    starts with the rows it had, in the same order and each with the id,
    the owner and the creation time it had. *)
Theorem rows_never_deleted trace db :
  (λ r, (id r, user_id r, createdAt r)) <$> rows db
  `prefix_of` (λ r, (id r, user_id r, createdAt r)) <$> rows (run trace db).
Proof.
  revert db. induction trace as [|[u c] trace IH]; intros db; [done|].
  simpl. etrans; [|apply IH].
  destruct (modulesRouter_rows u c db)
    as [->|[(i & set & Hkeep & ->)|(row & _ & _ & ->)]].
  - done.
  - rewrite scoped_rewrite_fmap; [done|].
    intros r. destruct (Hkeep r) as (-> & -> & ->). done.
  - rewrite fmap_app. by apply prefix_app_r.
Qed.

(** *** [getById] *)

Lemma statement_read_result {A} (g : list ModuleRow → A) db a db' :
  statement (λ rs, (inr (g rs), rs)) db = (inr a, db') →
  a = g (rows db) ∧ rows db' = rows db.
Proof.
  unfold statement. destruct (faults db) as [|[e|] fs]; intros H;
    by simplify_eq.
Qed.

(** X7.  [getById] never hands out a module of another user: whenever it
    returns a module, under any behaviour of the store, that module is a
    stored row with the requested id and the caller as owner. *)
Theorem getById_returns_own userId input_id db m db' :
  getById userId input_id db = (inr m, db') →
  m ∈ rows db ∧ id m = input_id ∧ user_id m = userId.
Proof.
  unfold getById, findFirst. unfold_M. intros H.
  destruct (statement _ db) as [[e|[m0|]] s'] eqn:Hst; simpl in H.
  - by destruct e.
  - injection H as <- <-.
    apply statement_read_result in Hst as [Hm _].
    by apply (owned_Some userId input_id).
  - done.
Qed.

Lemma getById_returns_own_witness :
  let mine := mkRow "7f9c2e1a" "u1" "Algorithms" (Some "") "CS201"
                "default" "default" false 4 100 100 100 in
  let theirs := mkRow "0b1d4c33" "u2" "Logic" None "CS101"
                  "default" "default" true 2 90 90 90 in
  mine ∈ [theirs; mine] ∧ id mine = "7f9c2e1a" ∧ user_id mine = "u1".
Proof.
  intros mine theirs.
  apply (getById_returns_own "u1" "7f9c2e1a" (mkDb [theirs; mine] [None])
           mine (mkDb [theirs; mine] [])).
  reflexivity.
Defined.

(** X8.  The errors of [getById]: a [DrizzleError] of the store is
    reported as BAD_REQUEST with the store's message; every other failure,
    its own "Module not found" included, as INTERNAL_SERVER_ERROR with a
    fixed message.  No NOT_FOUND and no raw store error ever leaves it. *)
Theorem getById_errors userId input_id db e db' :
  getById userId input_id db = (inl e, db') →
  (∃ msg, head (faults db) = Some (Some (DrizzleFault msg)) ∧
          e = TRPCError BAD_REQUEST msg) ∨
  e = TRPCError INTERNAL_SERVER_ERROR
        "An error occurred while fetching the module".
Proof.
  unfold getById, findFirst, statement. unfold_M.
  destruct (faults db) as [|[[msg|msg]|] fs]; simpl; intros H.
  - destruct (head _); simplify_eq. by right.
  - simplify_eq. left. by exists msg.
  - simplify_eq. by right.
  - destruct (head _); simplify_eq. by right.
Qed.

Lemma getById_errors_witness :
  (∃ msg, head [Some (DrizzleFault "connection reset")]
          = Some (Some (DrizzleFault msg)) ∧
          TRPCError BAD_REQUEST "connection reset"
          = TRPCError BAD_REQUEST msg) ∨
  TRPCError BAD_REQUEST "connection reset"
  = TRPCError INTERNAL_SERVER_ERROR
      "An error occurred while fetching the module".
Proof.
  apply (getById_errors "u1" "7f9c2e1a"
           (mkDb [] [Some (DrizzleFault "connection reset")])
           (TRPCError BAD_REQUEST "connection reset") (mkDb [] [])).
  reflexivity.
Defined.

(** *** [update] *)

(** X9.  [update] on an id the caller does not own never succeeds and
    never writes, whatever the store does; on a store without failures it
    throws NOT_FOUND. *)
Theorem update_not_owned now userId moduleId updateData db :
  owned userId moduleId (rows db) = None →
  rows (update now userId moduleId updateData db).2 = rows db ∧
  (∀ n, (update now userId moduleId updateData db).1 ≠ inr n) ∧
  (faults db = [] →
   (update now userId moduleId updateData db).1
   = inl (TRPCError NOT_FOUND "Module not found")).
Proof.
  intros Ho. unfold owned in Ho.
  unfold update, findFirst, statement. unfold_M.
  destruct (faults db) as [|[f|] fs]; simpl; rewrite ?Ho; simpl; done.
Qed.

Lemma update_not_owned_witness :
  let theirs := mkRow "0b1d4c33" "u2" "Logic" None "CS101"
                  "default" "default" true 2 90 90 90 in
  let data := mkValues "Mine now" None "X" "default" "default" 0 in
  rows (update 200 "u1" "0b1d4c33" data (healthy [theirs])).2 = [theirs] ∧
  (update 200 "u1" "0b1d4c33" data (healthy [theirs])).1
  = inl (TRPCError NOT_FOUND "Module not found").
Proof.
  intros theirs data.
  destruct (update_not_owned 200 "u1" "0b1d4c33" data (healthy [theirs]))
    as (Hrows & _ & Herr); [reflexivity|].
  split; [exact Hrows|]. apply Herr. reflexivity.
Defined.

(** With a primary key, the scoped filter finds at most the one module. *)
Lemma scoped_filter_singleton userId moduleId rs m :
  unique_ids rs → owned userId moduleId rs = Some m →
  filter (id_and_owner moduleId userId) rs = [m].
Proof.
  intros Hu Ho. unfold owned in Ho.
  assert (Hnd : NoDup (filter (id_and_owner moduleId userId) rs)).
  { apply NoDup_filter. by apply (NoDup_fmap_1 id). }
  assert (Hall : ∀ x, x ∈ filter (id_and_owner moduleId userId) rs → x = m).
  { intros x Hx. apply head_Some_elem_of in Ho.
    apply list_elem_of_filter in Hx as [[Hxi _] Hxin].
    apply list_elem_of_filter in Ho as [[Hmi _] Hmin].
    apply (unique_ids_inj rs); [done..|congruence]. }
  destruct (filter (id_and_owner moduleId userId) rs) as [|x [|y l]];
    [done| |].
  - simpl in Ho. by simplify_eq.
  - exfalso. apply NoDup_cons in Hnd as [Hx _]. apply Hx.
    rewrite (Hall x), (Hall y); [left|right; left|left].
Qed.

(** X10.  [update] of an owned module, on a table with a primary key and
    a store without failures: one row is affected; the stored module takes
    the parsed input, where an absent description becomes the empty string
    and an absent icon, color or credit count falls back to its default,
    even when the module had another value; [modifiedAt] is the time of
    the call; [id], owner, [archived], [createdAt] and [lastVisited] are
    kept; every other row is untouched. *)
Theorem update_effect now userId moduleId (input : ModuleFields) rs m :
  unique_ids rs → owned userId moduleId rs = Some m →
  ∃ rs' m',
    update now userId moduleId (insertModuleSchema input) (healthy rs)
      = (inr 1%nat, healthy rs') ∧
    owned userId moduleId rs' = Some m' ∧
    name m' = f_name input ∧
    description m' = Some (default "" (f_description input)) ∧
    code m' = f_code input ∧
    icon m' = default "default" (f_icon input) ∧
    color m' = default "default" (f_color input) ∧
    credits m' = default 0 (f_credits input) ∧
    modifiedAt m' = now ∧
    (id m', user_id m', archived m', createdAt m', lastVisited m')
      = (id m, user_id m, archived m, createdAt m, lastVisited m) ∧
    length rs' = length rs ∧
    (∀ (k : nat) r, rs !! k = Some r →
       ¬ id_and_owner moduleId userId r → rs' !! k = Some r).
Proof.
  intros Hu Ho. unfold update. unfold_M.
  rewrite findFirst_healthy. fold (owned userId moduleId rs). rewrite Ho.
  rewrite update_where_healthy, (scoped_filter_singleton _ _ _ m Hu Ho).
  eexists _, _. split; [reflexivity|].
  rewrite owned_update by apply set_update_keeps. rewrite Ho. simpl.
  split; [reflexivity|]. repeat (split; [reflexivity|]).
  split; [by rewrite length_fmap|].
  intros k r Hk Hn. rewrite list_lookup_fmap, Hk. simpl.
  by rewrite decide_False.
Qed.

Lemma update_effect_witness :
  let mine := mkRow "7f9c2e1a" "u1" "Algorithms" (Some "graphs") "CS201"
                "book" "red" true 4 100 150 170 in
  let input := mkFields "Algorithms II" None "CS202" None None None in
  ∃ rs' m',
    update 200 "u1" "7f9c2e1a" (insertModuleSchema input) (healthy [mine])
      = (inr 1%nat, healthy rs') ∧
    owned "u1" "7f9c2e1a" rs' = Some m' ∧
    name m' = "Algorithms II" ∧
    description m' = Some "" ∧
    code m' = "CS202" ∧
    icon m' = "default" ∧
    color m' = "default" ∧
    credits m' = 0 ∧
    modifiedAt m' = 200 ∧
    (id m', user_id m', archived m', createdAt m', lastVisited m')
      = ("7f9c2e1a", "u1", true, 100, 170) ∧
    length rs' = 1%nat ∧
    (∀ (k : nat) r, [mine] !! k = Some r →
       ¬ id_and_owner "7f9c2e1a" "u1" r → rs' !! k = Some r).
Proof.
  intros mine input.
  apply (update_effect 200 "u1" "7f9c2e1a" input [mine] mine).
  - refine (bool_decide_unpack _ _). vm_compute. exact I.
  - reflexivity.
Defined.

(** *** [archive], [recover] *)

Lemma scoped_rewrite_filter i userId set (rs : list ModuleRow) :
  (∀ r, id (set r) = id r ∧ user_id (set r) = user_id r) →
  filter (id_and_owner i userId)
    ((λ r, if decide (id_and_owner i userId r) then set r else r) <$> rs)
  = set <$> filter (id_and_owner i userId) rs.
Proof.
  intros Hkeep. induction rs as [|r rs IH]; [done|].
  rewrite fmap_cons, !filter_cons.
  destruct (decide (id_and_owner i userId r)) as [HP|HP].
  - rewrite decide_True, fmap_cons, IH; [done|].
    unfold id_and_owner in *. by destruct (Hkeep r) as [-> ->].
  - by rewrite decide_False.
Qed.

Lemma scoped_rewrite_twice i userId set (rs : list ModuleRow) :
  (∀ r, id (set r) = id r ∧ user_id (set r) = user_id r) →
  (∀ r, set (set r) = set r) →
  (λ r, if decide (id_and_owner i userId r) then set r else r) <$>
    ((λ r, if decide (id_and_owner i userId r) then set r else r) <$> rs)
  = (λ r, if decide (id_and_owner i userId r) then set r else r) <$> rs.
Proof.
  intros Hkeep Hidem. rewrite <- list_fmap_compose. apply list_fmap_ext.
  intros k r _. simpl.
  destruct (decide (id_and_owner i userId r)) as [HP|HP].
  - rewrite decide_True; [by rewrite Hidem|].
    unfold id_and_owner in *. by destruct (Hkeep r) as [-> ->].
  - by rewrite decide_False.
Qed.

(** X11.  [archive] and [recover] reach their target state and are
    idempotent: repeating the call affects the same rows and leaves the
    table as the first call left it; the owned module ends archived,
    respectively not archived. *)
Theorem archive_recover_idempotent userId input_id rs :
  (∃ n rs1,
     archive userId input_id (healthy rs) = (inr n, healthy rs1) ∧
     archive userId input_id (healthy rs1) = (inr n, healthy rs1) ∧
     ∀ m, owned userId input_id rs = Some m →
          owned userId input_id rs1 = Some (set_archived true m)) ∧
  (∃ n rs1,
     recover userId input_id (healthy rs) = (inr n, healthy rs1) ∧
     recover userId input_id (healthy rs1) = (inr n, healthy rs1) ∧
     ∀ m, owned userId input_id rs = Some m →
          owned userId input_id rs1 = Some (set_archived false m)).
Proof.
  split; unfold archive, recover; rewrite update_where_healthy;
    eexists _, _; (split; [reflexivity|]); rewrite update_where_healthy.
  all: split;
    [ rewrite scoped_rewrite_twice by (done || apply set_archived_keeps);
      rewrite scoped_rewrite_filter by apply set_archived_keeps;
      by rewrite length_fmap
    | intros m Ho; rewrite owned_update by apply set_archived_keeps;
      by rewrite Ho ].
Qed.

(** *** [create] then [getById] *)

Lemma getById_not_owned_internal_error_aux userId input_id rs :
  owned userId input_id rs = None →
  (getById userId input_id (healthy rs)).1
  = inl (TRPCError INTERNAL_SERVER_ERROR
           "An error occurred while fetching the module").
Proof.
  intros Ho. unfold getById, owned in *. unfold_M.
  by rewrite findFirst_healthy, Ho.
Qed.

(** X12.  A created module can be read back: after a [create] with a
    new id, [getById] by the creator returns exactly the module that
    [create] returned, with the name, code and credits of the input, and
    [getById] by anyone else fails. *)
Theorem create_then_getById uuid now userId (input : ModuleFields) rs :
  uuid ∉ id <$> rs →
  ∃ m db',
    create uuid now userId (insertModuleSchema input) (healthy rs)
      = (inr [m], db') ∧
    getById userId uuid db' = (inr m, db') ∧
    name m = f_name input ∧ code m = f_code input ∧
    credits m = default 0 (f_credits input) ∧
    ∀ other, other ≠ userId → ∃ e, (getById other uuid db').1 = inl e.
Proof.
  intros Hfresh. unfold create, insert_returning, statement; simpl.
  rewrite decide_False by done.
  match goal with |- context [inr [?r]] => set (row := r) end.
  exists row, (healthy (rs ++ [row])). split; [reflexivity|].
  assert (Hnone : ∀ u, filter (id_and_owner uuid u) rs = []).
  { intros u. apply filter_nil_iff. intros m Hm [Hid _]. apply Hfresh.
    rewrite <- Hid. apply list_elem_of_fmap. by exists m. }
  split.
  { apply (getById_owned userId uuid). unfold owned.
    rewrite filter_app, Hnone, filter_cons, decide_True; done. }
  split; [done|]. split; [done|]. split; [done|].
  intros other Hne.
  rewrite (getById_not_owned_internal_error_aux other uuid); [by eexists|].
  unfold owned. rewrite filter_app, Hnone, filter_cons, decide_False; [done|].
  unfold id_and_owner; simpl. intros [_ ?]. congruence.
Qed.

Lemma archive_recover_idempotent_witness :
  let mine := mkRow "7f9c2e1a" "u1" "Algorithms" (Some "") "CS201"
                "default" "default" false 4 100 150 170 in
  ∃ n rs1,
    archive "u1" "7f9c2e1a" (healthy [mine]) = (inr n, healthy rs1) ∧
    archive "u1" "7f9c2e1a" (healthy rs1) = (inr n, healthy rs1) ∧
    owned "u1" "7f9c2e1a" rs1 = Some (set_archived true mine).
Proof.
  intros mine.
  destruct (archive_recover_idempotent "u1" "7f9c2e1a" [mine])
    as [(n & rs1 & H1 & H2 & Ho) _].
  exists n, rs1. split; [exact H1|]. split; [exact H2|].
  apply Ho. reflexivity.
Defined.

Lemma create_then_getById_witness :
  let input := mkFields "Algorithms" None "CS201" None None (Some 4) in
  ∃ m db',
    create "7f9c2e1a" 100 "u1" (insertModuleSchema input) (healthy [])
      = (inr [m], db') ∧
    getById "u1" "7f9c2e1a" db' = (inr m, db') ∧
    name m = "Algorithms" ∧ code m = "CS201" ∧ credits m = 4 ∧
    ∀ other, other ≠ "u1" → ∃ e, (getById other "7f9c2e1a" db').1 = inl e.
Proof.
  intros input.
  apply (create_then_getById "7f9c2e1a" 100 "u1" input []).
  apply not_elem_of_nil.
Defined.

(** *** Listing *)

Lemma NoDup_fmap_elem_inj {A B} (f : A → B) (l : list A) x y :
  NoDup (f <$> l) → x ∈ l → y ∈ l → f x = f y → x = y.
Proof.
  induction l as [|r l IH]; intros Hnd H1 H2 Hf.
  { by apply not_elem_of_nil in H1. }
  rewrite fmap_cons in Hnd. apply NoDup_cons in Hnd as [Hr Hnd].
  apply elem_of_cons in H1 as [->|H1]; apply elem_of_cons in H2 as [->|H2].
  - done.
  - exfalso. apply Hr. rewrite Hf. apply list_elem_of_fmap. by exists y.
  - exfalso. apply Hr. rewrite <- Hf. apply list_elem_of_fmap. by exists x.
  - by apply IH.
Qed.

Lemma filter_all {A} (P : A → Prop) `{!∀ x, Decision (P x)} (l : list A) :
  (∀ x, x ∈ l → P x) → filter P l = l.
Proof.
  induction l as [|x l IH]; intros Hall; [done|].
  rewrite filter_cons, decide_True by (apply Hall; left).
  rewrite IH; [done|]. intros y Hy. apply Hall. by right.
Qed.

Lemma filter_none {A} (P : A → Prop) `{!∀ x, Decision (P x)} (l : list A) :
  (∀ x, x ∈ l → ¬ P x) → filter P l = [].
Proof.
  induction l as [|x l IH]; intros Hno; [done|].
  rewrite filter_cons, decide_False by (apply Hno; left).
  apply IH. intros y Hy. apply Hno. by right.
Qed.

(** X13.  A user with no more modules than [limit] gets all of them on
    the first page, archived ones included, and no cursor. *)
Theorem small_listing_complete userId limit rs :
  (length (modules_of userId rs) ≤ limit)%nat →
  ∃ page,
    getUserModules userId limit None (healthy rs) = (inr page, healthy rs) ∧
    items page ≡ₚ modules_of userId rs ∧
    nextCursor page = None.
Proof.
  intros Hle.
  rewrite (getUserModules_healthy _ _ _ _ _ (cursor_lookup_none rs)).
  eexists. split; [reflexivity|].
  pose proof (ranked_length userId None rs) as Hlen.
  rewrite page_of_items, page_of_nextCursor.
  split.
  - rewrite take_ge by (rewrite Hlen; exact Hle).
    by rewrite merge_sort_Permutation.
  - rewrite bool_decide_false; [done|]. rewrite Hlen.
    change (filter (page_where userId None) rs) with (modules_of userId rs).
    lia.
Qed.

Lemma small_listing_complete_witness :
  let row i a t := mkRow i "u1" "Algorithms" (Some "") "CS201"
                     "default" "default" a 4 t t t in
  let rs := [row "a1" false 50; row "b2" true 70; row "c3" false 60] in
  ∃ page,
    getUserModules "u1" 3 None (healthy rs) = (inr page, healthy rs) ∧
    items page ≡ₚ modules_of "u1" rs ∧
    nextCursor page = None.
Proof.
  intros row rs. apply (small_listing_complete "u1" 3 rs).
  vm_compute. lia.
Defined.

(** X14.  When the caller's modules all have different [lastVisited]
    times, following the cursor loses nothing and repeats nothing: the
    first page of [limit] followed by the page behind its cursor is the
    first page of [limit + limit]. *)
Theorem distinct_timestamps_pages_concat userId limit rs :
  unique_ids rs → "" ∉ id <$> rs →
  NoDup (lastVisited <$> modules_of userId rs) →
  (1 ≤ limit < length (modules_of userId rs))%nat →
  ∃ page1 c page2 both,
    getUserModules userId limit None (healthy rs) = (inr page1, healthy rs) ∧
    nextCursor page1 = Some c ∧
    getUserModules userId limit (Some c) (healthy rs)
      = (inr page2, healthy rs) ∧
    getUserModules userId (limit + limit) None (healthy rs)
      = (inr both, healthy rs) ∧
    items both = items page1 ++ items page2.
Proof.
  intros Hu Hne Hdist [Hone Hmore].
  pose proof (ranked_sorted userId None rs) as Hsorted.
  pose proof (ranked_length userId None rs) as Hlen.
  pose proof (merge_sort_Permutation desc_lastVisited
                (filter (page_where userId None) rs)) as Hperm.
  pose proof (getUserModules_healthy userId limit None rs None
                (cursor_lookup_none rs)) as Hget1.
  pose proof (getUserModules_healthy userId (limit + limit) None rs None
                (cursor_lookup_none rs)) as Hgetb.
  remember (merge_sort desc_lastVisited (filter (page_where userId None) rs))
    as s eqn:Hs. clear Hs.
  change (filter (page_where userId None) rs) with (modules_of userId rs)
    in Hlen, Hperm.
  assert (Hnds : NoDup (lastVisited <$> s)) by by rewrite Hperm.
  assert (Hnd : NoDup s) by by apply (NoDup_fmap_1 lastVisited).
  assert (is_Some (last (take limit s))) as [l Hl].
  { apply last_is_Some. intros Hnil. apply (f_equal length) in Hnil.
    rewrite length_take, Hlen in Hnil. simpl in Hnil. lia. }
  assert (Hlt : l ∈ take limit s) by by apply last_Some_elem_of.
  assert (Hls : l ∈ s) by by apply (subseteq_take limit).
  assert (Hlrs : l ∈ rs).
  { rewrite Hperm in Hls. by apply list_elem_of_filter in Hls as [_ ?]. }
  assert (Hlne : id l ≠ "").
  { intros Hempty. apply Hne. rewrite <- Hempty.
    apply list_elem_of_fmap. by exists l. }
  pose proof (findFirst_by_key (id l) rs l Hu Hlrs eq_refl) as Hfound.
  pose proof (getUserModules_healthy userId limit (Some (id l)) rs _
                (cursor_lookup_found (id l) l rs Hlne Hfound)) as Hget2.
  assert (Hhigh : ∀ x, x ∈ take limit s → ¬ lastVisited x < lastVisited l).
  { intros x Hx.
    destruct (StronglySorted_last desc_lastVisited (take limit s) l x)
      as [Hd | ->]; [by apply take_StronglySorted|done|done| |lia].
    unfold desc_lastVisited in Hd. lia. }
  assert (Hlow : ∀ x, x ∈ drop limit s → lastVisited x < lastVisited l).
  { intros x Hx.
    assert (Hd : desc_lastVisited l x).
    { apply (StronglySorted_app_1_elem_of _ (take limit s) (drop limit s));
        [by rewrite take_drop|done|done]. }
    unfold desc_lastVisited in Hd.
    destruct (decide (lastVisited x = lastVisited l)) as [Heq|]; [|lia].
    exfalso.
    assert (x = l).
    { apply (NoDup_fmap_elem_inj lastVisited s); [done| |done|done].
      by apply (subseteq_drop limit). }
    subst x. rewrite <- (take_drop limit s) in Hnd.
    apply NoDup_app in Hnd as (_ & Hdisj & _). by apply (Hdisj l). }
  assert (Hs2 : merge_sort desc_lastVisited
                  (filter (page_where userId (Some (lastVisited l))) rs)
                = drop limit s).
  { apply (StronglySorted_unique_strong desc_lastVisited).
    - intros x1 x2 Hx1 Hx2 H12 H21. unfold desc_lastVisited in *.
      apply (NoDup_fmap_elem_inj lastVisited s); [done| | |lia].
      + rewrite Hperm. apply ranked_elem_of in Hx1 as [[Hxu _] Hxr].
        by apply list_elem_of_filter.
      + by apply (subseteq_drop limit).
    - apply ranked_sorted.
    - rewrite <- (take_drop limit s) in Hsorted.
      by apply StronglySorted_app_1_r in Hsorted.
    - rewrite merge_sort_Permutation.
      trans (filter (λ t, lastVisited t < lastVisited l) s).
      + rewrite Hperm. unfold modules_of. rewrite list_filter_filter.
        apply reflexive_eq, list_filter_iff. intros x.
        unfold page_where. tauto.
      + rewrite <- (take_drop limit s) at 1.
        rewrite filter_app, filter_none, filter_all by done. done. }
  rewrite Hs2 in Hget2.
  eexists _, (id l), _, _.
  split; [exact Hget1|]. split.
  { rewrite page_of_nextCursor, bool_decide_true by lia. by rewrite Hl. }
  split; [exact Hget2|]. split; [exact Hgetb|].
  by rewrite !page_of_items, take_take_drop.
Qed.

Lemma distinct_timestamps_pages_concat_witness :
  let row i t := mkRow i "u1" "Algorithms" (Some "") "CS201"
                   "default" "default" false 4 t t t in
  let rs := [row "a1" 50; row "b2" 70; row "c3" 60; row "d4" 10;
             row "e5" 30] in
  ∃ page1 c page2 both,
    getUserModules "u1" 2 None (healthy rs) = (inr page1, healthy rs) ∧
    nextCursor page1 = Some c ∧
    getUserModules "u1" 2 (Some c) (healthy rs) = (inr page2, healthy rs) ∧
    getUserModules "u1" (2 + 2) None (healthy rs) = (inr both, healthy rs) ∧
    items both = items page1 ++ items page2.
Proof.
  intros row rs.
  apply (distinct_timestamps_pages_concat "u1" 2 rs).
  - refine (bool_decide_unpack _ _). vm_compute. exact I.
  - refine (bool_decide_unpack _ _). vm_compute. exact I.
  - refine (bool_decide_unpack _ _). vm_compute. exact I.
  - vm_compute. lia.
Defined.

(** The caller's strictly most recently visited module is the first item
    of the first page. *)
Lemma most_recent_first userId limit rs m :
  (1 ≤ limit)%nat → m ∈ rs → user_id m = userId →
  (∀ r, r ∈ rs → user_id r = userId → r ≠ m →
        lastVisited r < lastVisited m) →
  ∃ page,
    getUserModules userId limit None (healthy rs) = (inr page, healthy rs) ∧
    head (items page) = Some m.
Proof.
  intros Hlimit Hm Hmu Hrecent.
  rewrite (getUserModules_healthy _ _ _ _ _ (cursor_lookup_none rs)).
  eexists. split; [reflexivity|]. rewrite page_of_items.
  pose proof (ranked_sorted userId None rs) as Hsorted.
  pose proof (ranked_elem_of userId None rs) as Hmem.
  remember (merge_sort desc_lastVisited (filter (page_where userId None) rs))
    as s eqn:Hs. clear Hs.
  assert (Hms : m ∈ s) by (apply Hmem; done).
  destruct s as [|x tl]; [by apply not_elem_of_nil in Hms|].
  destruct limit as [|limit]; [lia|]. simpl. f_equal.
  destruct (decide (x = m)) as [|Hxm]; [done|]. exfalso.
  apply StronglySorted_inv in Hsorted as [_ Hall].
  apply elem_of_cons in Hms as [->|Htl]; [done|].
  rewrite Forall_forall in Hall. specialize (Hall m Htl).
  unfold desc_lastVisited in Hall.
  destruct (proj1 (Hmem x) ltac:(left)) as [Hxu Hxr].
  specialize (Hrecent x Hxr Hxu Hxm). lia.
Qed.

(** X15.  [updateLastVisited] drives the recency order: after touching
    an owned module at a time later than every visit of the caller's
    modules, that module, changed in [lastVisited] only, is the first item
    of the caller's listing. *)
Theorem touched_module_first now userId input_id limit rs m :
  unique_ids rs → owned userId input_id rs = Some m →
  (∀ r, r ∈ rs → user_id r = userId → lastVisited r < now) →
  (1 ≤ limit)%nat →
  ∃ n rs' page m',
    updateLastVisited now userId input_id (healthy rs)
      = (inr n, healthy rs') ∧
    getUserModules userId limit None (healthy rs')
      = (inr page, healthy rs') ∧
    head (items page) = Some m' ∧
    lastVisited m' = now ∧
    (id m', user_id m', name m', description m', code m', icon m', color m',
     archived m', credits m', createdAt m', modifiedAt m')
    = (id m, user_id m, name m, description m, code m, icon m, color m,
       archived m, credits m, createdAt m, modifiedAt m).
Proof.
  intros Hu Ho Hrecent Hlimit. unfold updateLastVisited.
  rewrite update_where_healthy.
  set (g := λ r, if decide (id_and_owner input_id userId r)
                 then set_lastVisited now r else r).
  assert (Ho' : owned userId input_id (g <$> rs)
                = Some (set_lastVisited now m)).
  { unfold g. rewrite owned_update; [by rewrite Ho|done]. }
  destruct (owned_Some _ _ _ _ Ho) as (Hmrs & Hmi & Hmu).
  destruct (owned_Some _ _ _ _ Ho') as (Hm'rs & _ & Hm'u).
  destruct (most_recent_first userId limit (g <$> rs)
              (set_lastVisited now m) Hlimit Hm'rs Hm'u)
    as (page & Hget & Hhead).
  { intros r' Hr' Hr'u Hne. simpl.
    apply list_elem_of_fmap in Hr' as (r & -> & Hr). unfold g in *.
    destruct (decide (id_and_owner input_id userId r)) as [[Hri Hru]|_].
    - exfalso. apply Hne. f_equal.
      apply (unique_ids_inj rs); [done..|congruence].
    - by apply Hrecent. }
  exists (length (filter (id_and_owner input_id userId) rs)), (g <$> rs),
    page, (set_lastVisited now m).
  done.
Qed.

Lemma touched_module_first_witness :
  let row i u t := mkRow i u "Algorithms" (Some "") "CS201"
                     "default" "default" false 4 10 20 t in
  let rs := [row "a1" "u1" 50; row "b2" "u2" 900; row "c3" "u1" 70] in
  ∃ n rs' page m',
    updateLastVisited 100 "u1" "a1" (healthy rs) = (inr n, healthy rs') ∧
    getUserModules "u1" 1 None (healthy rs') = (inr page, healthy rs') ∧
    head (items page) = Some m' ∧
    lastVisited m' = 100 ∧
    (id m', user_id m', name m', description m', code m', icon m', color m',
     archived m', credits m', createdAt m', modifiedAt m')
    = ("a1", "u1", "Algorithms", Some "", "CS201", "default", "default",
       false, 4, 10, 20).
Proof.
  intros row rs.
  apply (touched_module_first 100 "u1" "a1" 1 rs (row "a1" "u1" 50)).
  - refine (bool_decide_unpack _ _). vm_compute. exact I.
  - reflexivity.
  - intros r Hr Hru.
    repeat (apply elem_of_cons in Hr as [->|Hr]; [simpl in *; try lia; try discriminate|]).
    by apply not_elem_of_nil in Hr.
  - lia.
Defined.

(** X16.  A module created at a time later than every visit of its
    owner's modules is the first item of the owner's listing. *)
Theorem created_module_first uuid now userId (input : ModuleFields) limit rs :
  uuid ∉ id <$> rs →
  (∀ r, r ∈ rs → user_id r = userId → lastVisited r < now) →
  (1 ≤ limit)%nat →
  ∃ m rs' page,
    create uuid now userId (insertModuleSchema input) (healthy rs)
      = (inr [m], healthy rs') ∧
    getUserModules userId limit None (healthy rs')
      = (inr page, healthy rs') ∧
    head (items page) = Some m.
Proof.
  intros Hfresh Hrecent Hlimit.
  unfold create, insert_returning, statement; simpl.
  rewrite decide_False by done.
  match goal with |- context [inr [?r]] => set (row := r) end.
  destruct (most_recent_first userId limit (rs ++ [row]) row Hlimit)
    as (page & Hget & Hhead).
  - apply elem_of_app. right. left.
  - done.
  - intros r Hr Hru Hne. simpl.
    apply elem_of_app in Hr as [Hr|Hr]; [by apply Hrecent|].
    by apply list_elem_of_singleton in Hr.
  - by exists row, (rs ++ [row]), page.
Qed.

Lemma created_module_first_witness :
  let row i u t := mkRow i u "Algorithms" (Some "") "CS201"
                     "default" "default" false 4 10 20 t in
  let rs := [row "a1" "u1" 50; row "b2" "u2" 900] in
  let input := mkFields "Logic" None "CS101" None None None in
  ∃ m rs' page,
    create "c3" 100 "u1" (insertModuleSchema input) (healthy rs)
      = (inr [m], healthy rs') ∧
    getUserModules "u1" 5 None (healthy rs') = (inr page, healthy rs') ∧
    head (items page) = Some m.
Proof.
  intros row rs input.
  apply (created_module_first "c3" 100 "u1" input 5 rs).
  - refine (bool_decide_unpack _ _). vm_compute. exact I.
  - intros r Hr Hru.
    repeat (apply elem_of_cons in Hr as [->|Hr]; [simpl in *; try lia; try discriminate|]).
    by apply not_elem_of_nil in Hr.
  - lia.
Defined.

(** *** Timestamps *)

Lemma timely_mono t t' r : t ≤ t' → timely t r → timely t' r.
Proof. unfold timely. lia. Qed.

Lemma Forall_scoped_rewrite (Q : ModuleRow → Prop) i userId set
    (rs : list ModuleRow) :
  (∀ r, Q r → Q (set r)) → Forall Q rs →
  Forall Q ((λ r, if decide (id_and_owner i userId r) then set r else r)
              <$> rs).
Proof.
  intros Hset Hall. rewrite Forall_fmap. eapply Forall_impl; [exact Hall|].
  intros r Hr. simpl. destruct (decide (id_and_owner i userId r)); auto.
Qed.

Lemma modulesRouter_timely userId c db t :
  Forall (timely t) (rows db) →
  (∀ now, call_now c = Some now → t ≤ now) →
  Forall (timely (default t (call_now c))) (rows (modulesRouter userId c db)).
Proof.
  intros Hall Hclock.
  destruct c as [i|limit cursor|uuid now input|i|i|now i d|now i]; simpl.
  - by rewrite getById_rows.
  - by rewrite getUserModules_rows.
  - specialize (Hclock now eq_refl).
    assert (Hall' : Forall (timely now) (rows db)).
    { eapply Forall_impl; [exact Hall|]. intros r. by apply timely_mono. }
    unfold create, insert_returning.
    match goal with |- context [statement ?f db] =>
      destruct (statement_rows f db) as [->| ->] end; [done|]. simpl.
    destruct (decide (uuid ∈ id <$> rows db)); [done|]. simpl.
    apply Forall_app. split; [done|]. constructor; [|done].
    unfold timely; simpl. lia.
  - unfold archive.
    destruct (update_where_rows (id_and_owner i userId) (set_archived true) db)
      as [->| ->]; [done|]. by apply Forall_scoped_rewrite.
  - unfold recover.
    destruct (update_where_rows (id_and_owner i userId) (set_archived false) db)
      as [->| ->]; [done|]. by apply Forall_scoped_rewrite.
  - specialize (Hclock now eq_refl).
    assert (Hall' : Forall (timely now) (rows db)).
    { eapply Forall_impl; [exact Hall|]. intros r. by apply timely_mono. }
    destruct (update_rows now userId i d db) as [->| ->]; [done|].
    apply Forall_scoped_rewrite; [|done].
    unfold timely; simpl. intros r. lia.
  - specialize (Hclock now eq_refl).
    assert (Hall' : Forall (timely now) (rows db)).
    { eapply Forall_impl; [exact Hall|]. intros r. by apply timely_mono. }
    unfold updateLastVisited.
    destruct (update_where_rows (id_and_owner i userId)
                (set_lastVisited now) db) as [->| ->]; [done|].
    apply Forall_scoped_rewrite; [|done].
    unfold timely; simpl. intros r. lia.
Qed.

(** X17.  Time stamps stay in order: when the clock readings of the
    calls never go back, no call sequence, whatever the users, inputs and
    store failures, leaves a module whose [modifiedAt] or [lastVisited] is
    earlier than its [createdAt]. *)
Theorem timestamps_invariant trace db t0 :
  Forall (timely t0) (rows db) →
  StronglySorted Z.le (t0 :: omap (λ call, call_now call.2) trace) →
  Forall (λ r, createdAt r ≤ modifiedAt r ∧ createdAt r ≤ lastVisited r)
    (rows (run trace db)).
Proof.
  revert db t0. induction trace as [|[u c] trace IH]; intros db t0 Hall Hs.
  { simpl. eapply Forall_impl; [exact Hall|]. unfold timely. intros; lia. }
  simpl in *. apply (IH _ (default t0 (call_now c))).
  - apply modulesRouter_timely; [done|]. intros now Hnow.
    rewrite Hnow in Hs. simpl in Hs.
    apply StronglySorted_inv in Hs as [_ Hge].
    by inversion_clear Hge.
  - destruct (call_now c) as [now|]; simpl in *; [|done].
    by apply StronglySorted_inv in Hs as [? _].
Qed.

Lemma timestamps_invariant_witness :
  let mine := mkRow "7f9c2e1a" "u1" "Algorithms" (Some "") "CS201"
                "default" "default" false 4 100 100 100 in
  let data := mkValues "Logic" None "CS101" "default" "default" 2 in
  Forall (λ r, createdAt r ≤ modifiedAt r ∧ createdAt r ≤ lastVisited r)
    (rows (run [("u2", Create "0b1d4c33" 110 data);
                ("u1", UpdateLastVisited 110 "7f9c2e1a");
                ("u1", Archive "7f9c2e1a");
                ("u1", Update 130 "7f9c2e1a" data)]
             (healthy [mine]))).
Proof.
  intros mine data. apply (timestamps_invariant _ _ 100).
  - repeat constructor; simpl; lia.
  - simpl. repeat constructor; lia.
Defined.

End module_further.
